(** * cs161-proj1-reference: the [rsa] command-line driver (main.c)

  A shallow embedding of [main.c]: the message codec ([encode], [decode]),
  the three subcommands ([encrypt_mode], [decrypt_mode], [genkey_mode])
  and the dispatcher [main], together with the properties the
  specification states about them.

  C strings are byte buffers read up to their first NUL byte; GMP
  integers ([mpz_t]) are [Z]; the observable behaviour of the process
  (standard output, standard error, calls into the RSA library of
  [rsa.h]) is an event trace threaded through a small writer monad. *)

From Stdlib Require Import String Ascii Strings.Byte DecimalString.
From Stdlib Require Import ZArith List Lia Bool.
From Stdlib Require DecimalPos.
Import ListNotations.

Local Open Scope Z_scope.

(* ================================================================== *)
(** ** Bytes *)

Module Bytes.

(** The value of a byte as an unsigned char. *)
Definition to_Z (b : byte) : Z := Z.of_N (Byte.to_N b).

(** The low eight bits of an integer, as a byte. *)
Definition of_Z (z : Z) : byte :=
  match Byte.of_N (Z.to_N (Z.land z 255)) with
  | Some b => b
  | None => x00
  end.

Definition is_nul (b : byte) : bool := Byte.eqb b x00.

(** [isspace] in the C locale: space, \t, \n, \v, \f, \r. *)
Definition isspace (b : byte) : bool :=
  let v := to_Z b in (v =? 32) || ((9 <=? v) && (v <=? 13)).

(** [isdigit]: '0' .. '9'. *)
Definition isdigit (b : byte) : bool :=
  let v := to_Z b in (48 <=? v) && (v <=? 57).

(** The value of a decimal digit character. *)
Definition digit_value (b : byte) : Z := to_Z b - 48.

(** The longest prefix whose bytes all satisfy [p], and the rest. *)
Fixpoint take_while (p : byte -> bool) (s : list byte) : list byte :=
  match s with
  | [] => []
  | b :: r => if p b then b :: take_while p r else []
  end.

Fixpoint drop_while (p : byte -> bool) (s : list byte) : list byte :=
  match s with
  | [] => []
  | b :: r => if p b then drop_while p r else s
  end.

(** The bytes of a string literal, without terminator. *)
Definition text (s : string) : list byte := list_byte_of_string s.

End Bytes.

(* ================================================================== *)
(** ** C strings *)

Module CStr.
Import Bytes.

(** A [const char *] is modelled by the bytes of the object it points
    into, from the pointer on.  The string it denotes is what the C
    library reads: the bytes before the first NUL. *)
Definition buffer := list byte.

Definition chars (s : buffer) : list byte :=
  take_while (fun b => negb (is_nul b)) s.

(** Whether a byte sequence contains no NUL byte. *)
Definition nul_free (s : list byte) : bool :=
  forallb (fun b => negb (is_nul b)) s.

(** [strlen(s)]. *)
Definition strlen (s : buffer) : nat := length (chars s).

(** [strcmp(a, b) == 0]. *)
Definition streq (a b : buffer) : bool :=
  if list_eq_dec Byte.byte_eq_dec (chars a) (chars b) then true else false.

(** The buffer holding a string literal (or an [argv] entry): its
    characters followed by the terminating NUL. *)
Definition lit (s : string) : buffer := text s ++ [x00].

(** The buffer holding the bytes [bs] followed by a terminating NUL. *)
Definition terminated (bs : list byte) : buffer := bs ++ [x00].

End CStr.

(* ================================================================== *)
(** ** The GMP functions used by the codec *)

Module Gmp.
Import Bytes.

(** Big-endian value of a byte sequence, most significant byte first. *)
Definition be_value (bs : list byte) : Z :=
  fold_left (fun acc b => acc * 256 + to_Z b) bs 0.

(** [mpz_import(x, count, 1, 1, 0, 0, data)]: [count] words of one byte
    each, most significant word first, no nail bits: [x] becomes the
    big-endian value of the first [count] bytes of [data]. *)
Definition mpz_import (count : nat) (data : list byte) : Z :=
  be_value (firstn count data).

(** Number of base-256 digits of a nonnegative integer
    (GMP's [MPN_SIZEINBASE_2EXP] with 8 bits per word); 0 for 0. *)
Definition sizeinbase_256 (a : Z) : nat :=
  if a =? 0 then O else Z.to_nat (Z.log2 a / 8 + 1).

(** The [count] low-order bytes of [a], most significant first. *)
Fixpoint be_bytes (count : nat) (a : Z) : list byte :=
  match count with
  | O => []
  | S k => of_Z (Z.shiftr a (8 * Z.of_nat k)) :: be_bytes k a
  end.

(** [mpz_export(NULL, &count, 1, 1, 0, 0, x)]: the words of [|x|], most
    significant first, one byte each; the sign is ignored and zero
    produces no word at all.  The result is the pair of the bytes
    written and [count]. *)
Definition mpz_export (x : Z) : list byte * nat :=
  let a := Z.abs x in
  let count := sizeinbase_256 a in
  (be_bytes count a, count).

End Gmp.

(* ================================================================== *)
(** ** The codec of main.c *)

Import Bytes CStr Gmp.

(** [static void encode(mpz_t x, const char *s)]:
  [mpz_import(x, strlen(s), 1, 1, 0, 0, s)]. *)
Definition encode (s : buffer) : Z :=
mpz_import (strlen s) s.

(** [static char *decode(const mpz_t x, size_t *len)]: the exported bytes
  are copied into a fresh buffer of [count + 1] bytes, [s[count]] is set
  to NUL and [*len] to [count].  The result is the buffer and [*len]. *)
Definition decode (x : Z) : buffer * nat :=
let '(buf, count) := mpz_export x in
(firstn count buf ++ [x00], count).

(** The byte string a decoded result denotes for a caller that uses the
  reported length (as [fwrite(message, len, 1, stdout)] does). *)
Definition decoded_bytes (r : buffer * nat) : list byte :=
firstn (snd r) (fst r).

(* ================================================================== *)
(** ** Observable behaviour *)

(** The two output streams of the process. *)
Inductive stream := stdout | stderr.

(** What the process does that can be seen from outside: bytes written to
    a stream, and calls into the RSA library declared in [rsa.h]. *)
Inductive event :=
| Write (fp : stream) (bs : list byte)
| Call_rsa_key_load_public (filename : list byte)
| Call_rsa_key_load_private (filename : list byte)
| Call_rsa_encrypt (m : Z)
| Call_rsa_decrypt (c : Z)
| Call_rsa_genkey (numbits : Z)
| Call_rsa_key_write.

Definition trace := list event.

(** A computation returns a value and the events it produced, in order. *)
Definition io (A : Type) : Type := A * trace.

Definition ret {A} (a : A) : io A := (a, []).

Definition bind {A B} (m : io A) (k : A -> io B) : io B :=
  let '(a, t1) := m in
  let '(b, t2) := k a in
  (b, t1 ++ t2).

Definition emit (e : event) : io unit := (tt, [e]).

Declare Scope io_scope.
Delimit Scope io_scope with io.
Notation "x <- m ;; k" := (bind m (fun x => k))
  (at level 61, m at next level, right associativity) : io_scope.
Notation "' pat <- m ;; k" := (bind m (fun x => let 'pat := x in k))
  (at level 61, pat pattern, m at next level, right associativity) : io_scope.
Notation "m ;; k" := (bind m (fun _ => k))
  (at level 61, right associativity) : io_scope.
Local Open Scope io_scope.

Definition exit_code (r : io Z) : Z := fst r.
Definition events (r : io Z) : trace := snd r.

(** The bytes a trace writes to a given stream. *)
Fixpoint written (fp : stream) (t : trace) : list byte :=
  match t with
  | [] => []
  | Write fp' bs :: r =>
      match fp, fp' with
      | stdout, stdout | stderr, stderr => bs ++ written fp r
      | _, _ => written fp r
      end
  | _ :: r => written fp r
  end.

(** Whether a trace contains a call to [rsa_genkey]. *)
Fixpoint calls_genkey (t : trace) : bool :=
  match t with
  | [] => false
  | Call_rsa_genkey _ :: _ => true
  | _ :: r => calls_genkey r
  end.

(** Whether a trace contains an attempt to load a key file. *)
Fixpoint calls_key_load (t : trace) : bool :=
  match t with
  | [] => false
  | Call_rsa_key_load_public _ :: _ => true
  | Call_rsa_key_load_private _ :: _ => true
  | _ :: r => calls_key_load r
  end.

(** The ciphertexts handed to [rsa_decrypt] in a trace. *)
Fixpoint decrypt_calls (t : trace) : list Z :=
  match t with
  | [] => []
  | Call_rsa_decrypt c :: r => c :: decrypt_calls r
  | _ :: r => decrypt_calls r
  end.

(* ================================================================== *)
(** ** Number parsing and printing in the C library and GMP *)

Module CLib.

(** Value of a sequence of decimal digit characters. *)
Definition decimal (ds : list byte) : Z :=
  fold_left (fun acc c => acc * 10 + digit_value c) ds 0.

(** The conversion loop of [mpz_set_str]: white space is dropped, a
    decimal digit is accumulated, any other character is an error. *)
Fixpoint scan_digits (acc : Z) (s : list byte) : option Z :=
  match s with
  | [] => Some acc
  | c :: r =>
      if isspace c then scan_digits acc r
      else if isdigit c then scan_digits (acc * 10 + digit_value c) r
      else None
  end.

Definition is_minus (b : byte) : bool := Byte.eqb b "-"%byte.
Definition is_plus (b : byte) : bool := Byte.eqb b "+"%byte.
Definition is_zero_digit (b : byte) : bool := Byte.eqb b "0"%byte.

(** [mpz_set_str(c, str, 10)] of GMP.  Leading white space is skipped, one
    ['-'] may follow, the next character has to be a digit; then leading
    zeros and white space are skipped and the rest is converted by
    [scan_digits].  [Some v] stands for return value 0 with [c] set to
    [v]; [None] for return value -1. *)
Definition mpz_set_str (str : buffer) : option Z :=
  let s0 := drop_while isspace (chars str) in
  let '(negative, s1) :=
    match s0 with
    | c :: r => if is_minus c then (true, r) else (false, s0)
    | [] => (false, s0)
    end in
  match s1 with
  | [] => None
  | c :: _ =>
      if isdigit c then
        match scan_digits 0
                (drop_while (fun c => is_zero_digit c || isspace c) s1) with
        | Some v => Some (if negative then - v else v)
        | None => None
        end
      else None
  end.

Definition ERANGE : Z := 34.

(** The result of [strtoul]: the value returned, the offset of [*endptr]
    from the start of the string, and the value [errno] has afterwards
    (it is 0 before the call). *)
Record strtoul_result := {
  ul_value : Z;
  ul_endp : nat;
  ul_errno : Z
}.

(** [strtoul(nptr, &endp, 10)] for an [unsigned long] of maximum
    [ulong_max]: white space, an optional sign, then the longest run of
    digits.  Without a digit nothing is converted and [endp] is [nptr].
    A magnitude above [ulong_max] gives [ulong_max] and [ERANGE]; a
    ['-'] negates the value in [unsigned long] arithmetic. *)
Definition strtoul (ulong_max : Z) (nptr : buffer) : strtoul_result :=
  let s := chars nptr in
  let ws := length (take_while isspace s) in
  let s1 := skipn ws s in
  let '(negative, sgn) :=
    match s1 with
    | c :: _ => if is_minus c then (true, 1%nat)
                else if is_plus c then (false, 1%nat)
                else (false, 0%nat)
    | [] => (false, 0%nat)
    end in
  let ds := take_while isdigit (skipn sgn s1) in
  match ds with
  | [] => {| ul_value := 0; ul_endp := 0; ul_errno := 0 |}
  | _ :: _ =>
      let v := decimal ds in
      let endp := (ws + sgn + length ds)%nat in
      if v >? ulong_max then
        {| ul_value := ulong_max; ul_endp := endp; ul_errno := ERANGE |}
      else
        {| ul_value := if negative then (- v) mod (ulong_max + 1) else v;
           ul_endp := endp; ul_errno := 0 |}
  end.

(** The text [%Zd] prints for an integer. *)
Definition decimal_text (z : Z) : list byte :=
  text (NilZero.string_of_int (Z.to_int z)).

End CLib.

Import CLib.

(** The newline character of the C string literals. *)
Definition nl : string := String (ascii_of_nat 10) EmptyString.

(* ================================================================== *)
(** ** The RSA library and the platform *)

(** Modelled from the spec: [struct rsa_key] is declared in [rsa.h], which
    is not part of the sources at hand.  The data model gives a key a
    modulus n, a public exponent e and a private exponent d. *)
Record rsa_key := {
  modulus : Z;
  public_exponent : Z;
  private_exponent : Z
}.

(** What [main.c] takes from outside: the limits of [limits.h], whether
    the stdio calls on standard output report success ([stdout_ok]), and
    the functions of [rsa.h]
    ([rsa_key_load_public], [rsa_key_load_private], [rsa_encrypt],
    [rsa_decrypt], [rsa_genkey], [rsa_key_write]).  The loaders give a
    return code and the key they stored; [rsa_key_write] gives the bytes
    it put on the stream and its return code. *)
Record world := {
  ULONG_MAX : Z;
  UINT_MAX : Z;
  stdout_ok : bool;
  load_public : list byte -> Z * rsa_key;
  load_private : list byte -> Z * rsa_key;
  encrypt_fn : Z -> rsa_key -> Z;
  decrypt_fn : Z -> rsa_key -> Z;
  genkey_fn : Z -> rsa_key;
  key_write_fn : rsa_key -> list byte * Z
}.

Section Program.

Variable w : world.

(** *** Output *)

(** [fprintf(fp, text)]: the text goes to the stream.  [stdout_ok] is the
    verdict of the call itself: false stands for a call on standard
    output that reports an error, after which nothing is seen and -1 is
    returned.  [main.c] neither unbuffers nor flushes standard output, so
    a descriptor that cannot be written while the text still fits the
    stream's buffer does not make the call fail: to [main.c] that is a
    world with [stdout_ok] true. *)
Definition fprintf (fp : stream) (bs : list byte) : io Z :=
  match fp with
  | stderr => emit (Write stderr bs) ;; ret (Z.of_nat (length bs))
  | stdout =>
      if stdout_ok w then emit (Write stdout bs) ;; ret (Z.of_nat (length bs))
      else ret (-1)
  end.

(** [gmp_printf("%Zd\n", c)]. *)
Definition gmp_printf_Zd_nl (c : Z) : io Z :=
  fprintf stdout (decimal_text c ++ text nl).

(** [fwrite(ptr, size, nmemb, stdout)]: the number of elements written.
    When [size] or [nmemb] is zero it returns zero and leaves the stream
    as it is (ISO C 7.21.8.2).  Otherwise [stdout_ok] is again the
    verdict of the call: a call that reports an error returns fewer
    elements than asked, here none; output that stays in the buffer of
    an unwritable descriptor counts as written. *)
Definition fwrite (ptr : buffer) (size nmemb : nat) : io nat :=
  if (Nat.eqb size 0 || Nat.eqb nmemb 0)%bool then ret O
  else if stdout_ok w then
    emit (Write stdout (firstn (size * nmemb) ptr)) ;; ret nmemb
  else ret O.

(** [static int usage(FILE *fp)]. *)
Definition usage_text : list byte :=
  text ("Usage:" ++ nl ++
        "  rsa encrypt <keyfile> <message>" ++ nl ++
        "  rsa decrypt <keyfile> <ciphertext>" ++ nl ++
        "  rsa genkey <numbits>" ++ nl)%string.

Definition usage (fp : stream) : io Z := fprintf fp usage_text.

(** *** Calls into the RSA library *)

Definition rsa_key_load_public (filename : buffer) : io (Z * rsa_key) :=
  emit (Call_rsa_key_load_public (chars filename)) ;;
  ret (load_public w (chars filename)).

Definition rsa_key_load_private (filename : buffer) : io (Z * rsa_key) :=
  emit (Call_rsa_key_load_private (chars filename)) ;;
  ret (load_private w (chars filename)).

Definition rsa_encrypt (m : Z) (key : rsa_key) : io Z :=
  emit (Call_rsa_encrypt m) ;; ret (encrypt_fn w m key).

Definition rsa_decrypt (c : Z) (key : rsa_key) : io Z :=
  emit (Call_rsa_decrypt c) ;; ret (decrypt_fn w c key).

Definition rsa_genkey (numbits : Z) : io rsa_key :=
  emit (Call_rsa_genkey numbits) ;; ret (genkey_fn w numbits).

Definition rsa_key_write (key : rsa_key) : io Z :=
  emit Call_rsa_key_write ;;
  let '(bs, rc) := key_write_fn w key in
  match bs with
  | [] => ret rc
  | _ :: _ => emit (Write stdout bs) ;; ret rc
  end.

(** The [done:] label of the three subcommands: [rsa_key_clear],
    [mpz_clear] and [free] release memory and nothing else, then [rc] is
    returned. *)
Definition done (rc : Z) : io Z := ret rc.

(** *** The subcommands

    Each subcommand starts with [rsa_key_init] and [mpz_init], which
    allocate and initialise local variables and are not observable; they
    have no counterpart below, where a variable comes into being when it
    is first assigned. *)

(** [static int encrypt_mode(const char *key_filename, const char *message)] *)
Definition encrypt_mode (key_filename message : buffer) : io Z :=
  '(rc, key) <- rsa_key_load_public key_filename ;;
  if negb (rc =? 0) then
    fprintf stderr (text "error reading key file " ++ chars key_filename
                    ++ text nl) ;;
    done 1
  else
    let m := encode message in
    c <- rsa_encrypt m key ;;
    r <- gmp_printf_Zd_nl c ;;
    if r =? -1 then
      fprintf stderr (text ("error writing ciphertext" ++ nl)) ;;
      done 1
    else done rc.

(** [static int decrypt_mode(const char *key_filename, const char *c_str)] *)
Definition decrypt_mode (key_filename c_str : buffer) : io Z :=
  match mpz_set_str c_str with
  | None =>
      fprintf stderr (text ("could not parse ciphertext" ++ nl)) ;;
      done 1
  | Some c =>
      '(rc, key) <- rsa_key_load_private key_filename ;;
      if negb (rc =? 0) then
        fprintf stderr (text "error reading key file " ++ chars key_filename
                        ++ text nl) ;;
        done 1
      else
        m <- rsa_decrypt c key ;;
        let '(message, len) := decode m in
        r <- fwrite message len 1 ;;
        if negb (Nat.eqb r 1) then
          fprintf stderr (text ("error writing plaintext" ++ nl)) ;;
          done 1
        else done rc
  end.

(** [static int genkey_mode(const char *numbits_str)] *)
Definition genkey_mode (numbits_str : buffer) : io Z :=
  let r := strtoul (ULONG_MAX w) numbits_str in
  let n := ul_value r in
  let endp := ul_endp r in
  if (Nat.eqb endp 0 || negb (ul_errno r =? 0)
      || negb (is_nul (nth endp numbits_str x00)))%bool then
    fprintf stderr (text ("could not parse integer" ++ nl)) ;;
    done 1
  else if n >? UINT_MAX w then
    fprintf stderr (text ("integer is too large" ++ nl)) ;;
    done 1
  else
    let numbits := n mod (UINT_MAX w + 1) in
    key <- rsa_genkey numbits ;;
    rc <- rsa_key_write key ;;
    if rc =? -1 then done 1 else done 0.

(** [int main(int argc, char *argv[])] *)
Definition main (argv : list buffer) : io Z :=
  let argc := length argv in
  if (argc <? 2)%nat then usage stderr ;; ret 1
  else
    let command := nth 1 argv [] in
    if (streq command (lit "-h") || streq command (lit "--help")
        || streq command (lit "help"))%bool then
      usage stdout ;; ret 0
    else if streq command (lit "encrypt") then
      if negb (Nat.eqb argc 4) then
        fprintf stderr
          (text ("encrypt needs a key filename and a message" ++ nl)) ;;
        ret 1
      else encrypt_mode (nth 2 argv []) (nth 3 argv [])
    else if streq command (lit "decrypt") then
      if negb (Nat.eqb argc 4) then
        fprintf stderr
          (text ("decrypt needs a key filename and a ciphertext" ++ nl)) ;;
        ret 1
      else decrypt_mode (nth 2 argv []) (nth 3 argv [])
    else if streq command (lit "genkey") then
      if negb (Nat.eqb argc 3) then
        fprintf stderr (text ("genkey needs a number of bits" ++ nl)) ;;
        ret 1
      else genkey_mode (nth 2 argv [])
    else usage stderr ;; ret 1.

End Program.

(** *** Vocabulary for the statements about [main] *)

(** The commands of the first branch of [main]. *)
Definition is_help (command : buffer) : bool :=
  (streq command (lit "-h") || streq command (lit "--help")
   || streq command (lit "help"))%bool.

(** The commands [main] has a branch for. *)
Definition recognized (command : buffer) : bool :=
  (is_help command || streq command (lit "encrypt")
   || streq command (lit "decrypt") || streq command (lit "genkey"))%bool.

(** The test [genkey_mode] makes after [strtoul]:
    [endp == numbits_str || errno != 0 || *endp != '\0']. *)
Definition strtoul_failed (r : strtoul_result) (nptr : buffer) : bool :=
  (Nat.eqb (ul_endp r) 0 || negb (ul_errno r =? 0)
   || negb (is_nul (nth (ul_endp r) nptr x00)))%bool.

(** *** Vocabulary for the shape of a bit-count argument

    A bit-count argument as its reader sees it: leading white space, an
    optional sign, a run of decimal digits, and whatever follows. *)

(** Whether the first byte of a sequence satisfies [p]. *)
Definition starts_with (p : byte -> bool) (s : list byte) : bool :=
  match s with
  | c :: _ => p c
  | [] => false
  end.

(** No sign, a plus sign or a minus sign. *)
Definition is_sign (sg : list byte) : bool :=
  match sg with
  | [] => true
  | [c] => (is_plus c || is_minus c)%bool
  | _ => false
  end.


(** White space or a sign. *)
Definition blank_or_sign (c : byte) : bool :=
  (isspace c || is_plus c || is_minus c)%bool.

(* ================================================================== *)
(** ** A concrete RSA library *)

(** Modelled from the spec: [rsa_encrypt] and [rsa_decrypt] live in the
    absent [rsa.c]; the transform engine is specified as m^e mod n and
    c^d mod n. *)
Definition spec_encrypt (m : Z) (key : rsa_key) : Z :=
  Z.modulo (Z.pow m (public_exponent key)) (modulus key).

Definition spec_decrypt (c : Z) (key : rsa_key) : Z :=
  Z.modulo (Z.pow c (private_exponent key)) (modulus key).

(** Modelled from the spec: the key serializer of the absent [rsa.c]
    writes the decimal fields of the key, here one per line. *)
Definition spec_key_write (key : rsa_key) : list byte * Z :=
  (decimal_text (modulus key) ++ text nl
   ++ decimal_text (public_exponent key) ++ text nl
   ++ decimal_text (private_exponent key) ++ text nl, 0).

(** An LP64 platform with a working standard output on which every key
    file holds [key] and [rsa_genkey] produces [key]. *)
Definition lp64_world (key : rsa_key) : world := {|
  ULONG_MAX := 18446744073709551615;
  UINT_MAX := 4294967295;
  stdout_ok := true;
  load_public := fun _ => (0, key);
  load_private := fun _ => (0, key);
  encrypt_fn := spec_encrypt;
  decrypt_fn := spec_decrypt;
  genkey_fn := fun _ => key;
  key_write_fn := spec_key_write
|}.

(** The same platform with no readable key file at all. *)
Definition lp64_world_nokey (key : rsa_key) : world := {|
  ULONG_MAX := 18446744073709551615;
  UINT_MAX := 4294967295;
  stdout_ok := true;
  load_public := fun _ => (-1, key);
  load_private := fun _ => (-1, key);
  encrypt_fn := spec_encrypt;
  decrypt_fn := spec_decrypt;
  genkey_fn := fun _ => key;
  key_write_fn := spec_key_write
|}.

(** The textbook key n = 61 * 53, e = 17, d = 2753. *)
Definition toy_key : rsa_key :=
  {| modulus := 3233; public_exponent := 17; private_exponent := 2753 |}.

(** A key small enough to compute with by hand: n = 3 * 11, e = 3, d = 7. *)
Definition tiny_key : rsa_key :=
  {| modulus := 33; public_exponent := 3; private_exponent := 7 |}.

(* ================================================================== *)
(** * Properties *)

(** ** Bytes and big-endian values *)

Lemma to_Z_range (b : byte) : 0 <= to_Z b < 256.
Proof.
  unfold to_Z. pose proof (Byte.to_N_bounded b). lia.
Qed.

Lemma land_255 (z : Z) : Z.land z 255 = z mod 256.
Proof.
  change 255 with (Z.ones 8). rewrite Z.land_ones by lia. reflexivity.
Qed.

Lemma to_Z_of_Z (z : Z) : to_Z (of_Z z) = z mod 256.
Proof.
  unfold of_Z, to_Z. rewrite land_255.
  pose proof (Z.mod_pos_bound z 256 ltac:(lia)) as Hb.
  destruct (Byte.of_N (Z.to_N (z mod 256))) as [b|] eqn:E.
  - apply Byte.to_of_N in E. rewrite E. lia.
  - apply Byte.of_N_None_iff in E. lia.
Qed.

Lemma of_Z_to_Z (b : byte) : of_Z (to_Z b) = b.
Proof.
  unfold of_Z, to_Z. rewrite land_255.
  pose proof (Byte.to_N_bounded b).
  rewrite Z.mod_small by lia.
  rewrite N2Z.id, Byte.of_to_N. reflexivity.
Qed.

Lemma to_Z_inj (a b : byte) : to_Z a = to_Z b -> a = b.
Proof.
  intros H. rewrite <- (of_Z_to_Z a), <- (of_Z_to_Z b), H. reflexivity.
Qed.

Lemma is_nul_true (b : byte) : is_nul b = true <-> b = x00.
Proof.
  unfold is_nul. split; intros H.
  - now apply Byte.byte_dec_bl.
  - now apply Byte.byte_dec_lb.
Qed.

Lemma is_nul_to_Z (b : byte) : is_nul b = false <-> to_Z b <> 0.
Proof.
  split; intros H.
  - intros E. change 0 with (to_Z x00) in E. apply to_Z_inj in E.
    apply is_nul_true in E. congruence.
  - destruct (is_nul b) eqn:E; [|reflexivity].
    apply is_nul_true in E. subst b. now elim H.
Qed.

Lemma fold_be_acc (bs : list byte) (acc : Z) :
  fold_left (fun a b => a * 256 + to_Z b) bs acc
  = acc * 256 ^ Z.of_nat (length bs) + be_value bs.
Proof.
  unfold be_value. revert acc.
  induction bs as [|b bs IH]; intros acc; cbn [fold_left].
  - simpl. lia.
  - rewrite IH, (IH (0 * 256 + to_Z b)).
    replace (Z.of_nat (length (b :: bs))) with (Z.of_nat (length bs) + 1)
      by (simpl length; lia).
    rewrite Z.pow_add_r by lia. lia.
Qed.

Lemma be_value_nil : be_value [] = 0.
Proof. reflexivity. Qed.

Lemma be_value_cons (b : byte) (bs : list byte) :
  be_value (b :: bs) = to_Z b * 256 ^ Z.of_nat (length bs) + be_value bs.
Proof.
  unfold be_value at 1. cbn [fold_left]. rewrite fold_be_acc. lia.
Qed.

Lemma be_value_bound (bs : list byte) :
  0 <= be_value bs < 256 ^ Z.of_nat (length bs).
Proof.
  induction bs as [|b bs IH].
  - rewrite be_value_nil. simpl. lia.
  - rewrite be_value_cons.
    replace (Z.of_nat (length (b :: bs))) with (Z.of_nat (length bs) + 1)
      by (simpl length; lia).
    rewrite Z.pow_add_r by lia.
    pose proof (to_Z_range b). nia.
Qed.

(** Two byte strings of the same length with the same value are equal. *)
Lemma be_value_inj (s t : list byte) :
  length s = length t -> be_value s = be_value t -> s = t.
Proof.
  revert t. induction s as [|a s IH]; intros [|b t] Hl Hv;
    simpl in Hl; try discriminate; [reflexivity|].
  injection Hl as Hl.
  rewrite !be_value_cons, <- Hl in Hv.
  pose proof (be_value_bound s) as Hs.
  pose proof (be_value_bound t) as Ht. rewrite <- Hl in Ht.
  pose proof (to_Z_range a). pose proof (to_Z_range b).
  assert (to_Z a = to_Z b) by nia.
  assert (be_value s = be_value t) by nia.
  f_equal; [now apply to_Z_inj | now apply IH].
Qed.

Lemma be_value_lower (b : byte) (bs : list byte) :
  b <> x00 -> 256 ^ Z.of_nat (length bs) <= be_value (b :: bs).
Proof.
  intros Hb. rewrite be_value_cons.
  assert (to_Z b <> 0).
  { apply is_nul_to_Z. destruct (is_nul b) eqn:E; [|reflexivity].
    apply is_nul_true in E. contradiction. }
  pose proof (to_Z_range b). pose proof (be_value_bound bs).
  assert (0 < 256 ^ Z.of_nat (length bs)) by (apply Z.pow_pos_nonneg; lia).
  nia.
Qed.

(** ** The export and import of GMP *)

Lemma length_be_bytes (k : nat) (a : Z) : length (be_bytes k a) = k.
Proof. induction k; simpl; congruence. Qed.

Lemma be_value_be_bytes (k : nat) (a : Z) :
  be_value (be_bytes k a) = a mod 256 ^ Z.of_nat k.
Proof.
  induction k as [|k IH].
  - simpl be_bytes. rewrite be_value_nil. simpl. now rewrite Z.mod_1_r.
  - cbn [be_bytes]. rewrite be_value_cons, length_be_bytes, IH, to_Z_of_Z.
    rewrite Z.shiftr_div_pow2 by lia.
    replace (2 ^ (8 * Z.of_nat k)) with (256 ^ Z.of_nat k)
      by (change 256 with (2 ^ 8); rewrite <- Z.pow_mul_r; lia).
    replace (Z.of_nat (S k)) with (Z.of_nat k + 1) by lia.
    rewrite Z.pow_add_r by lia. change (256 ^ 1) with 256.
    assert (0 < 256 ^ Z.of_nat k) by (apply Z.pow_pos_nonneg; lia).
    rewrite (Z.rem_mul_r a (256 ^ Z.of_nat k) 256) by lia. lia.
Qed.

Lemma sizeinbase_256_zero : sizeinbase_256 0 = O.
Proof. reflexivity. Qed.

(** A positive integer lies between the powers of 256 its size names. *)
Lemma sizeinbase_256_bounds (a : Z) :
  0 < a ->
  exists k, sizeinbase_256 a = S k
            /\ 256 ^ Z.of_nat k <= a < 256 ^ Z.of_nat (S k).
Proof.
  intros Ha. unfold sizeinbase_256.
  destruct (Z.eqb_spec a 0) as [E|_]; [lia|].
  pose proof (Z.log2_nonneg a) as Hl.
  pose proof (Z.log2_spec a Ha) as [Hlo Hhi].
  set (q := Z.log2 a / 8) in *.
  assert (Hq : 0 <= q) by (apply Z.div_pos; lia).
  pose proof (Z.div_mod (Z.log2 a) 8 ltac:(lia)) as Hdm.
  pose proof (Z.mod_pos_bound (Z.log2 a) 8 ltac:(lia)) as Hm.
  fold q in Hdm.
  exists (Z.to_nat q). split.
  - rewrite Z2Nat.inj_add by lia. simpl. lia.
  - rewrite Nat2Z.inj_succ, Z2Nat.id by lia.
    change 256 with (2 ^ 8). rewrite <- !Z.pow_mul_r by lia.
    split.
    + eapply Z.le_trans; [|exact Hlo]. apply Z.pow_le_mono_r; lia.
    + eapply Z.lt_le_trans; [exact Hhi|]. apply Z.pow_le_mono_r; lia.
Qed.

(** The size is determined by those bounds. *)
Lemma sizeinbase_256_unique (a : Z) (k : nat) :
  256 ^ Z.of_nat k <= a < 256 ^ Z.of_nat (S k) -> sizeinbase_256 a = S k.
Proof.
  intros [Hlo Hhi].
  assert (Ha : 0 < a).
  { eapply Z.lt_le_trans; [|exact Hlo]. apply Z.pow_pos_nonneg; lia. }
  destruct (sizeinbase_256_bounds a Ha) as (j & Ej & Hjlo & Hjhi).
  rewrite Ej. f_equal.
  destruct (Nat.lt_trichotomy j k) as [L|[E|L]]; [exfalso|exact E|exfalso].
  - assert (256 ^ Z.of_nat (S j) <= 256 ^ Z.of_nat k)
      by (apply Z.pow_le_mono_r; lia). lia.
  - assert (256 ^ Z.of_nat (S k) <= 256 ^ Z.of_nat j)
      by (apply Z.pow_le_mono_r; lia). lia.
Qed.

Lemma mpz_export_length (x : Z) :
  length (fst (mpz_export x)) = snd (mpz_export x).
Proof. unfold mpz_export. simpl. apply length_be_bytes. Qed.

(** Exporting and reading back gives the magnitude. *)
Lemma be_value_mpz_export (x : Z) : be_value (fst (mpz_export x)) = Z.abs x.
Proof.
  unfold mpz_export. simpl fst. rewrite be_value_be_bytes.
  destruct (Z.eq_dec (Z.abs x) 0) as [E|N].
  - rewrite E. reflexivity.
  - destruct (sizeinbase_256_bounds (Z.abs x) ltac:(lia)) as (k & Ek & Hlo & Hhi).
    rewrite Ek. apply Z.mod_small. lia.
Qed.

(** The first exported byte is never zero. *)
Lemma mpz_export_head (x : Z) (b : byte) (r : list byte) :
  fst (mpz_export x) = b :: r -> b <> x00.
Proof.
  unfold mpz_export. simpl fst. intros E Hb. subst b.
  destruct (Z.eq_dec (Z.abs x) 0) as [E0|N].
  - rewrite E0 in E. discriminate.
  - destruct (sizeinbase_256_bounds (Z.abs x) ltac:(lia)) as (k & Ek & Hlo & Hhi).
    pose proof (be_value_be_bytes (S k) (Z.abs x)) as Hv.
    rewrite Ek in E. rewrite E, be_value_cons in Hv.
    assert (length r = k).
    { pose proof (length_be_bytes (S k) (Z.abs x)) as Hl.
      rewrite E in Hl. simpl in Hl. lia. }
    subst k. rewrite Z.mod_small in Hv by lia.
    pose proof (be_value_bound r). change (to_Z x00) with 0 in Hv. lia.
Qed.

(** No byte string with the same value is shorter than the exported one. *)
Lemma mpz_export_minimal (x : Z) (bs : list byte) :
  be_value bs = Z.abs x -> (snd (mpz_export x) <= length bs)%nat.
Proof.
  intros Hv. unfold mpz_export. simpl snd.
  destruct (Z.eq_dec (Z.abs x) 0) as [E|N].
  - rewrite E, sizeinbase_256_zero. apply Nat.le_0_l.
  - destruct (sizeinbase_256_bounds (Z.abs x) ltac:(lia)) as (k & Ek & Hlo & Hhi).
    rewrite Ek.
    pose proof (be_value_bound bs) as Hb. rewrite Hv in Hb.
    destruct (Nat.le_gt_cases (S k) (length bs)) as [L|L]; [exact L|exfalso].
    assert (256 ^ Z.of_nat (length bs) <= 256 ^ Z.of_nat k)
      by (apply Z.pow_le_mono_r; lia). lia.
Qed.

(** Importing and exporting gives back a byte string without a leading
    zero byte. *)
Lemma mpz_export_be_value (bs : list byte) :
  hd_error bs <> Some x00 ->
  mpz_export (be_value bs) = (bs, length bs).
Proof.
  intros Hh. unfold mpz_export.
  pose proof (be_value_bound bs) as Hb.
  rewrite Z.abs_eq by lia.
  destruct bs as [|b r].
  - reflexivity.
  - assert (Hb0 : b <> x00) by (intros ->; now apply Hh).
    pose proof (be_value_lower b r Hb0) as Hlo.
    rewrite (sizeinbase_256_unique (be_value (b :: r)) (length r))
      by (simpl length in Hb; lia).
    simpl length. f_equal.
    apply be_value_inj.
    + rewrite length_be_bytes. reflexivity.
    + rewrite be_value_be_bytes. apply Z.mod_small. simpl length in Hb. lia.
Qed.

(** ** C strings *)

Lemma chars_app_nul (s rest : list byte) : chars (s ++ x00 :: rest) = chars s.
Proof.
  unfold chars. induction s as [|b s IH]; simpl.
  - reflexivity.
  - destruct (is_nul b); simpl; [reflexivity | now rewrite IH].
Qed.

Lemma chars_nul_free (s : list byte) : nul_free s = true -> chars s = s.
Proof.
  unfold chars, nul_free. induction s as [|b s IH]; simpl; intros H.
  - reflexivity.
  - apply andb_prop in H as [Hb Hs]. rewrite Hb, IH by exact Hs. reflexivity.
Qed.

Lemma firstn_strlen (s : buffer) : firstn (strlen s) s = chars s.
Proof.
  unfold strlen, chars. induction s as [|b s IH]; simpl.
  - reflexivity.
  - destruct (is_nul b); simpl; [reflexivity | now rewrite IH].
Qed.

Lemma nul_free_hd (s : list byte) : nul_free s = true -> hd_error s <> Some x00.
Proof.
  destruct s as [|b s]; simpl; intros H E; [discriminate|].
  injection E as ->. discriminate.
Qed.

(** [encode] is the big-endian value of the characters of its argument. *)
Lemma encode_chars (s : buffer) : encode s = be_value (chars s).
Proof. unfold encode, mpz_import. now rewrite firstn_strlen. Qed.

Lemma decode_eq (x : Z) :
  decode x = (fst (mpz_export x) ++ [x00], snd (mpz_export x)).
Proof.
  unfold decode. pose proof (mpz_export_length x) as Hl.
  destruct (mpz_export x) as [buf count]. simpl in *.
  subst count. now rewrite firstn_all.
Qed.

Lemma decoded_bytes_decode (x : Z) :
  decoded_bytes (decode x) = fst (mpz_export x).
Proof.
  rewrite decode_eq. unfold decoded_bytes. cbn [fst snd].
  rewrite <- mpz_export_length, firstn_app, firstn_all, Nat.sub_diag.
  cbn [firstn]. apply app_nil_r.
Qed.

(** ** The codec round trips *)

(** C1, as stated, fails: the minimal big-endian string of 256 is the two
    bytes 01 00, and [encode] stops reading the decoded string at its
    second byte, so that encode(decode(256)) is 1. *)
Lemma encode_decode_256 : 0 <= 256 /\ encode (fst (decode 256)) <> 256.
Proof. split; [lia | vm_compute; discriminate]. Qed.

(** C1, amended: for every integer x >= 0 whose minimal big-endian byte
    string contains no zero byte, encoding the string [decode] returns
    gives back x. *)
Theorem encode_decode (x : Z) :
  0 <= x ->
  nul_free (decoded_bytes (decode x)) = true ->
  encode (fst (decode x)) = x.
Proof.
  intros Hx Hn. rewrite decoded_bytes_decode in Hn.
  rewrite decode_eq. cbn [fst].
  rewrite encode_chars, chars_app_nul, chars_nul_free by exact Hn.
  rewrite be_value_mpz_export. lia.
Qed.

Lemma encode_decode_witness :
  0 <= 26729 /\ nul_free (decoded_bytes (decode 26729)) = true
  /\ encode (fst (decode 26729)) = 26729.
Proof.
  split; [lia|]. split; [reflexivity|].
  apply (encode_decode 26729); [lia | reflexivity].
Defined.

(** C2, as stated, fails: the byte string 01 00 02 does not start with a
    zero byte, but [encode] reads only its first byte and [decode] then
    returns the one-byte string 01 with length 1. *)
Lemma decode_encode_interior_nul :
  hd_error [x01; x00; x02] <> Some x00
  /\ decode (encode (terminated [x01; x00; x02]))
     <> (terminated [x01; x00; x02], 3%nat)
  /\ decoded_bytes (decode (encode (terminated [x01; x00; x02]))) = [x01].
Proof.
  split; [discriminate|]. split; [vm_compute; discriminate | reflexivity].
Qed.

(** C2, amended: for every byte string s that contains no zero byte,
    decoding the result of encoding s gives back s, NUL-terminated, and
    reports the length of s. *)
Theorem decode_encode (s : list byte) :
  nul_free s = true ->
  decode (encode (terminated s)) = (terminated s, length s).
Proof.
  intros Hn. unfold terminated.
  rewrite encode_chars, chars_app_nul, chars_nul_free by exact Hn.
  rewrite decode_eq, mpz_export_be_value by now apply nul_free_hd.
  reflexivity.
Qed.

Lemma decode_encode_witness :
  nul_free (text "hi") = true
  /\ decode (encode (terminated (text "hi"))) = (terminated (text "hi"), 2%nat).
Proof.
  split; [reflexivity|].
  apply (decode_encode (text "hi")). reflexivity.
Defined.

(** C7: for every integer x >= 0, [decode] returns the big-endian bytes of
    x followed by a NUL, reports their number, the first of them is not
    zero, no byte string of the same value is shorter, and decode(0) is
    the empty string with length 0. *)
Theorem decode_minimal_big_endian (x : Z) :
  0 <= x ->
  fst (decode x) = decoded_bytes (decode x) ++ [x00]
  /\ length (decoded_bytes (decode x)) = snd (decode x)
  /\ be_value (decoded_bytes (decode x)) = x
  /\ hd_error (decoded_bytes (decode x)) <> Some x00
  /\ (forall bs, be_value bs = x -> (snd (decode x) <= length bs)%nat)
  /\ decode 0 = ([x00], O).
Proof.
  intros Hx. rewrite decoded_bytes_decode, decode_eq. cbn [fst snd].
  repeat split.
  - apply mpz_export_length.
  - rewrite be_value_mpz_export. lia.
  - destruct (fst (mpz_export x)) as [|b r] eqn:E; [discriminate|].
    simpl. intros H. injection H as ->.
    now apply (mpz_export_head x x00 r).
  - intros bs Hv. apply mpz_export_minimal. lia.
Qed.

Lemma decode_minimal_big_endian_witness :
  0 <= 26729
  /\ fst (decode 26729) = decoded_bytes (decode 26729) ++ [x00]
  /\ length (decoded_bytes (decode 26729)) = snd (decode 26729)
  /\ be_value (decoded_bytes (decode 26729)) = 26729
  /\ hd_error (decoded_bytes (decode 26729)) <> Some x00
  /\ (forall bs, be_value bs = 26729 -> (snd (decode 26729) <= length bs)%nat)
  /\ decode 0 = ([x00], O).
Proof.
  split; [lia|]. apply (decode_minimal_big_endian 26729). lia.
Defined.

(** C8: [encode] reads exactly [strlen] bytes: on a buffer whose first NUL
    follows the NUL-free bytes p, the length read is that of p, the
    result is the big-endian value of p, and the bytes after that NUL do
    not influence it. *)
Theorem encode_stops_at_nul (p rest : list byte) :
  nul_free p = true ->
  strlen (p ++ x00 :: rest) = length p
  /\ encode (p ++ x00 :: rest) = be_value p
  /\ (forall rest', encode (p ++ x00 :: rest') = encode (p ++ x00 :: rest)).
Proof.
  intros Hn. repeat split.
  - unfold strlen. now rewrite chars_app_nul, chars_nul_free.
  - now rewrite encode_chars, chars_app_nul, chars_nul_free.
  - intros rest'. now rewrite !encode_chars, !chars_app_nul.
Qed.

Lemma encode_stops_at_nul_witness :
  nul_free [x41] = true
  /\ strlen ([x41] ++ x00 :: [x42; x00]) = 1%nat
  /\ encode ([x41] ++ x00 :: [x42; x00]) = 65
  /\ (forall rest', encode ([x41] ++ x00 :: rest')
                    = encode ([x41] ++ x00 :: [x42; x00])).
Proof.
  split; [reflexivity|].
  apply (encode_stops_at_nul [x41] [x42; x00]). reflexivity.
Defined.

(** ** Dispatch *)

Lemma main_encrypt (w : world) (prog key_filename message : buffer) :
  main w [prog; lit "encrypt"; key_filename; message]
  = encrypt_mode w key_filename message.
Proof. reflexivity. Qed.

Lemma main_decrypt (w : world) (prog key_filename c_str : buffer) :
  main w [prog; lit "decrypt"; key_filename; c_str]
  = decrypt_mode w key_filename c_str.
Proof. reflexivity. Qed.

Lemma main_genkey (w : world) (prog numbits_str : buffer) :
  main w [prog; lit "genkey"; numbits_str] = genkey_mode w numbits_str.
Proof. reflexivity. Qed.

(** ** The decrypt subcommand *)

(** What [decrypt_mode] does when the ciphertext does not parse. *)
Lemma decrypt_mode_parse_error (w : world) (key_filename c_str : buffer) :
  mpz_set_str c_str = None ->
  decrypt_mode w key_filename c_str
  = (1, [Write stderr (text ("could not parse ciphertext" ++ nl))]).
Proof. intros H. unfold decrypt_mode. rewrite H. reflexivity. Qed.

(** What [decrypt_mode] does when the ciphertext parses, the key loads
    and the decrypted integer is zero. *)
Lemma decrypt_mode_zero_message
  (w : world) (key_filename c_str : buffer) (c : Z) (key : rsa_key) :
  mpz_set_str c_str = Some c ->
  load_private w (chars key_filename) = (0, key) ->
  decrypt_fn w c key = 0 ->
  decrypt_mode w key_filename c_str
  = (1, [Call_rsa_key_load_private (chars key_filename);
         Call_rsa_decrypt c;
         Write stderr (text ("error writing plaintext" ++ nl))]).
Proof.
  intros Hp Hl Hd. unfold decrypt_mode, rsa_key_load_private, rsa_decrypt.
  rewrite Hp. cbn [bind emit ret app]. rewrite Hl. cbn [bind emit ret app].
  rewrite Hd. reflexivity.
Qed.

(** With the transforms of the specification, zero is encrypted and
    decrypted to zero under every key with positive exponents. *)
Lemma spec_transforms_zero (key : rsa_key) :
  0 < public_exponent key -> 0 < private_exponent key ->
  spec_encrypt 0 key = 0 /\ spec_decrypt 0 key = 0.
Proof.
  intros He Hd. unfold spec_encrypt, spec_decrypt.
  rewrite !Z.pow_0_l by lia. split; apply Zmod_0_l.
Qed.

(** C3: the empty message encodes to 0 and is encrypted without error,
    but decrypting a ciphertext whose plaintext integer is 0 does not
    succeed: nothing is written to standard output, [fwrite] of zero
    bytes reports zero elements, "error writing plaintext" goes to
    standard error and the exit code is 1 instead of 0. *)
Theorem decrypt_empty_message_fails
  (w : world) (prog key_filename : buffer) (key : rsa_key) :
  stdout_ok w = true ->
  load_public w (chars key_filename) = (0, key) ->
  load_private w (chars key_filename) = (0, key) ->
  encrypt_fn w 0 key = 0 ->
  decrypt_fn w 0 key = 0 ->
  encode (lit "") = 0
  /\ main w [prog; lit "encrypt"; key_filename; lit ""]
     = (0, [Call_rsa_key_load_public (chars key_filename);
            Call_rsa_encrypt 0;
            Write stdout (text ("0" ++ nl))])
  /\ exit_code (main w [prog; lit "decrypt"; key_filename; lit "0"]) = 1
  /\ written stdout
       (events (main w [prog; lit "decrypt"; key_filename; lit "0"])) = []
  /\ written stderr
       (events (main w [prog; lit "decrypt"; key_filename; lit "0"]))
     = text ("error writing plaintext" ++ nl).
Proof.
  intros Hout Hpub Hpriv He Hd.
  split; [reflexivity|]. split.
  - rewrite main_encrypt.
    unfold encrypt_mode, rsa_key_load_public, rsa_encrypt, gmp_printf_Zd_nl,
      fprintf.
    cbn [bind emit ret app]. rewrite Hpub. cbn [bind emit ret app].
    change (encode (lit "")) with 0. rewrite He, Hout. reflexivity.
  - rewrite main_decrypt.
    rewrite (decrypt_mode_zero_message w key_filename (lit "0") 0 key
               eq_refl Hpriv Hd).
    repeat split.
Qed.

Lemma decrypt_empty_message_fails_witness :
  stdout_ok (lp64_world toy_key) = true
  /\ load_public (lp64_world toy_key) (chars (lit "k")) = (0, toy_key)
  /\ load_private (lp64_world toy_key) (chars (lit "k")) = (0, toy_key)
  /\ encrypt_fn (lp64_world toy_key) 0 toy_key = 0
  /\ decrypt_fn (lp64_world toy_key) 0 toy_key = 0
  /\ exit_code (main (lp64_world toy_key)
                  [lit "rsa"; lit "decrypt"; lit "k"; lit "0"]) = 1
  /\ written stdout
       (events (main (lp64_world toy_key)
                  [lit "rsa"; lit "decrypt"; lit "k"; lit "0"])) = [].
Proof.
  pose proof (decrypt_empty_message_fails (lp64_world toy_key)
                (lit "rsa") (lit "k") toy_key
                eq_refl eq_refl eq_refl eq_refl eq_refl) as H.
  do 5 (split; [reflexivity|]). split; [apply H | apply H].
Defined.

(** A character that is neither a digit, nor white space, nor a minus
    sign makes [scan_digits] and [mpz_set_str] fail. *)
Lemma scan_digits_bad_char (s : list byte) (acc : Z) (b : byte) :
  In b s -> isdigit b = false -> isspace b = false ->
  scan_digits acc s = None.
Proof.
  intros Hin Hd Hs. revert acc.
  induction s as [|c r IH]; intros acc; [contradiction|].
  cbn [scan_digits]. destruct Hin as [->|Hin].
  - now rewrite Hs, Hd.
  - destruct (isspace c); [now apply IH|].
    destruct (isdigit c); [now apply IH | reflexivity].
Qed.

Lemma In_drop_while (p : byte -> bool) (s : list byte) (b : byte) :
  In b s -> p b = false -> In b (drop_while p s).
Proof.
  intros Hin Hp. induction s as [|c r IH]; [contradiction|].
  cbn [drop_while]. destruct (p c) eqn:E.
  - destruct Hin as [->|Hin]; [congruence | now apply IH].
  - exact Hin.
Qed.

Lemma mpz_set_str_bad_char (str : buffer) (b : byte) :
  In b (chars str) ->
  isdigit b = false -> isspace b = false -> is_minus b = false ->
  mpz_set_str str = None.
Proof.
  intros Hin Hd Hs Hm. unfold mpz_set_str.
  pose proof (In_drop_while isspace _ b Hin Hs) as H0.
  set (s0 := drop_while isspace (chars str)) in *.
  assert (H1 : exists negative s1,
             match s0 with
             | c :: r => if is_minus c then (true, r) else (false, s0)
             | [] => (false, s0)
             end = (negative, s1) /\ In b s1).
  { destruct s0 as [|c r]; [contradiction|].
    destruct (is_minus c) eqn:E.
    - exists true, r. split; [reflexivity|].
      destruct H0 as [->|H0]; [congruence | exact H0].
    - exists false, (c :: r). split; [reflexivity | exact H0]. }
  destruct H1 as (negative & s1 & -> & H1).
  destruct s1 as [|c r]; [contradiction|].
  destruct (isdigit c); [|reflexivity].
  rewrite (scan_digits_bad_char _ 0 b); [reflexivity | | exact Hd | exact Hs].
  apply In_drop_while; [exact H1|].
  rewrite Hs, orb_false_r.
  destruct (is_zero_digit b) eqn:E; [|reflexivity].
  apply Byte.byte_dec_bl in E. subst b. discriminate.
Qed.

(** C5: when the ciphertext argument of [decrypt] is not accepted as a
    decimal integer, in particular when it holds a character that is
    neither a digit, white space nor a minus sign, as "notanumber" does,
    the process exits with code 1, an error message is written to
    standard error and nothing to standard output. *)
Theorem decrypt_bad_ciphertext_exits_1
  (w : world) (prog key_filename c_str : buffer) :
  mpz_set_str c_str = None
  \/ (exists b, In b (chars c_str) /\ isdigit b = false
                /\ isspace b = false /\ is_minus b = false) ->
  exit_code (main w [prog; lit "decrypt"; key_filename; c_str]) = 1
  /\ written stderr
       (events (main w [prog; lit "decrypt"; key_filename; c_str])) <> []
  /\ written stdout
       (events (main w [prog; lit "decrypt"; key_filename; c_str])) = [].
Proof.
  intros H.
  assert (Hp : mpz_set_str c_str = None).
  { destruct H as [H|(b & Hin & Hd & Hs & Hm)]; [exact H|].
    now apply (mpz_set_str_bad_char c_str b). }
  rewrite main_decrypt, (decrypt_mode_parse_error w _ _ Hp).
  repeat split. discriminate.
Qed.

Lemma decrypt_bad_ciphertext_exits_1_witness :
  mpz_set_str (lit "notanumber") = None
  /\ exit_code (main (lp64_world toy_key)
               [lit "rsa"; lit "decrypt"; lit "priv.key"; lit "notanumber"])
     = 1
  /\ written stderr
       (events (main (lp64_world toy_key)
          [lit "rsa"; lit "decrypt"; lit "priv.key"; lit "notanumber"])) <> []
  /\ written stdout
       (events (main (lp64_world toy_key)
          [lit "rsa"; lit "decrypt"; lit "priv.key"; lit "notanumber"])) = [].
Proof.
  split; [reflexivity|].
  apply (decrypt_bad_ciphertext_exits_1 (lp64_world toy_key)
           (lit "rsa") (lit "priv.key") (lit "notanumber")).
  left. reflexivity.
Defined.

(** C10: the ciphertext is parsed before the key file is read: for every
    ciphertext string that does not parse, whatever the key loader would
    do, [decrypt_mode] writes "could not parse ciphertext" to standard
    error, returns 1 and never calls a key loader. *)
Theorem decrypt_parses_before_key_load
  (w : world) (key_filename c_str : buffer) :
  mpz_set_str c_str = None ->
  exit_code (decrypt_mode w key_filename c_str) = 1
  /\ events (decrypt_mode w key_filename c_str)
     = [Write stderr (text ("could not parse ciphertext" ++ nl))]
  /\ calls_key_load (events (decrypt_mode w key_filename c_str)) = false.
Proof.
  intros H. rewrite (decrypt_mode_parse_error w _ _ H). repeat split.
Qed.

Lemma decrypt_parses_before_key_load_witness :
  mpz_set_str (lit "12a") = None
  /\ calls_key_load
       (events (decrypt_mode (lp64_world_nokey toy_key)
                  (lit "missing.key") (lit "12a"))) = false
  /\ events (decrypt_mode (lp64_world toy_key) (lit "priv.key") (lit "12a"))
     = [Write stderr (text ("could not parse ciphertext" ++ nl))].
Proof.
  split; [reflexivity|]. split.
  - apply (decrypt_parses_before_key_load (lp64_world_nokey toy_key)
             (lit "missing.key") (lit "12a") eq_refl).
  - apply (decrypt_parses_before_key_load (lp64_world toy_key)
             (lit "priv.key") (lit "12a") eq_refl).
Defined.

(** ** Negative ciphertexts *)

Lemma isdigit_range (c : byte) : isdigit c = true -> 48 <= to_Z c <= 57.
Proof.
  unfold isdigit. cbv zeta. intros H.
  apply andb_prop in H as [H1 H2]. apply Z.leb_le in H1, H2. lia.
Qed.

Lemma isdigit_not_space (c : byte) : isdigit c = true -> isspace c = false.
Proof.
  intros H. apply isdigit_range in H. unfold isspace. cbv zeta.
  destruct (Z.eqb_spec (to_Z c) 32); [lia|].
  destruct (Z.leb_spec 9 (to_Z c)), (Z.leb_spec (to_Z c) 13);
    simpl; try reflexivity; lia.
Qed.

Lemma isdigit_not_nul (c : byte) : isdigit c = true -> is_nul c = false.
Proof.
  intros H. apply isdigit_range in H. apply is_nul_to_Z. lia.
Qed.

Lemma digits_nul_free (ds : list byte) :
  forallb isdigit ds = true -> nul_free ds = true.
Proof.
  unfold nul_free. induction ds as [|c r IH]; simpl; intros H.
  - reflexivity.
  - apply andb_prop in H as [Hc Hr].
    rewrite (isdigit_not_nul c Hc), IH by exact Hr. reflexivity.
Qed.

Lemma scan_digits_digits (ds : list byte) (acc : Z) :
  forallb isdigit ds = true ->
  scan_digits acc ds
  = Some (fold_left (fun a c => a * 10 + digit_value c) ds acc).
Proof.
  revert acc. induction ds as [|c r IH]; simpl; intros acc H.
  - reflexivity.
  - apply andb_prop in H as [Hc Hr].
    rewrite (isdigit_not_space c Hc), Hc. now apply IH.
Qed.

(** Skipping leading zeros keeps the digits digits and the value. *)
Lemma drop_zeros_decimal (ds : list byte) :
  forallb isdigit ds = true ->
  forallb isdigit
    (drop_while (fun c => (is_zero_digit c || isspace c)%bool) ds) = true
  /\ decimal (drop_while (fun c => (is_zero_digit c || isspace c)%bool) ds)
     = decimal ds.
Proof.
  induction ds as [|c r IH]; intros H.
  - split; reflexivity.
  - pose proof H as Hall. simpl in H. apply andb_prop in H as [Hc Hr].
    cbn [drop_while]. rewrite (isdigit_not_space c Hc), orb_false_r.
    destruct (is_zero_digit c) eqn:Ez.
    + destruct (IH Hr) as [IH1 IH2]. split; [exact IH1|].
      rewrite IH2. apply Byte.byte_dec_bl in Ez. subst c. reflexivity.
    + split; [exact Hall | reflexivity].
Qed.

(** [mpz_set_str] accepts a minus sign followed by decimal digits and
    yields the negated value. *)
Lemma mpz_set_str_negative (ds : list byte) :
  ds <> [] ->
  forallb isdigit ds = true ->
  mpz_set_str (terminated ("-"%byte :: ds)) = Some (- decimal ds).
Proof.
  intros Hne Hd. unfold mpz_set_str, terminated.
  assert (Hch : chars (("-"%byte :: ds) ++ [x00]) = "-"%byte :: ds).
  { rewrite chars_app_nul. apply chars_nul_free.
    change (nul_free ("-"%byte :: ds)) with (nul_free ds).
    now apply digits_nul_free. }
  rewrite Hch. clear Hch.
  change (drop_while isspace ("-"%byte :: ds)) with ("-"%byte :: ds).
  cbv iota beta. change (is_minus "-"%byte) with true. cbv iota beta.
  destruct ds as [|c r]; [congruence|].
  pose proof Hd as Hall. simpl in Hd. apply andb_prop in Hd as [Hc _].
  rewrite Hc.
  destruct (drop_zeros_decimal (c :: r) Hall) as [H1 H2].
  rewrite (scan_digits_digits _ 0 H1).
  fold (decimal (drop_while
    (fun c0 => (is_zero_digit c0 || isspace c0)%bool) (c :: r))).
  now rewrite H2.
Qed.

(** The first event of a sequence is the first event of its first part. *)
Lemma hd_events_bind {A : Type} (m : io A) (k : A -> io Z)
  (a : A) (e : event) (t : trace) :
  m = (a, e :: t) -> hd_error (events (bind m k)) = Some e.
Proof.
  intros ->. unfold bind, events. destruct (k a) as [b t2]. reflexivity.
Qed.

(** After a successful parse and key load [decrypt_mode] always calls
    [rsa_decrypt], on the parsed value. *)
Lemma decrypt_mode_proceeds
  (w : world) (key_filename c_str : buffer) (c : Z) :
  mpz_set_str c_str = Some c ->
  fst (load_private w (chars key_filename)) = 0 ->
  exists rc tl,
    decrypt_mode w key_filename c_str
    = (rc, Call_rsa_key_load_private (chars key_filename)
           :: Call_rsa_decrypt c :: tl)
    /\ decrypt_calls tl = [] /\ calls_key_load tl = false.
Proof.
  intros Hp Hl. unfold decrypt_mode, rsa_key_load_private, rsa_decrypt.
  rewrite Hp. cbn [bind emit ret app].
  destruct (load_private w (chars key_filename)) as [rc key].
  simpl in Hl. subst rc. cbn [bind emit ret app Z.eqb negb].
  destruct (decode (decrypt_fn w c key)) as [message len].
  unfold fwrite, fprintf, done.
  destruct len as [|len]; cbn [Nat.eqb orb bind emit ret app].
  - eexists _, _. split; [reflexivity|]. split; reflexivity.
  - destruct (stdout_ok w); cbn [Nat.eqb orb bind emit ret app negb].
    + eexists _, _. split; [reflexivity|]. split; reflexivity.
    + eexists _, _. split; [reflexivity|]. split; reflexivity.
Qed.

(** C9: the ciphertext parse of [decrypt] accepts negative decimal
    integers such as "-5": the parse yields the negative value, no parse
    error is reported, the private key is loaded, and once it is loaded
    [rsa_decrypt] is called on the negative value. *)
Theorem decrypt_accepts_negative_ciphertext
  (w : world) (key_filename : buffer) (ds : list byte) :
  ds <> [] ->
  forallb isdigit ds = true ->
  mpz_set_str (lit "-5") = Some (-5)
  /\ mpz_set_str (terminated ("-"%byte :: ds)) = Some (- decimal ds)
  /\ hd_error
       (events (decrypt_mode w key_filename (terminated ("-"%byte :: ds))))
     = Some (Call_rsa_key_load_private (chars key_filename))
  /\ (fst (load_private w (chars key_filename)) = 0 ->
      decrypt_calls
        (events (decrypt_mode w key_filename (terminated ("-"%byte :: ds))))
      = [- decimal ds]).
Proof.
  intros Hne Hd. pose proof (mpz_set_str_negative ds Hne Hd) as Hp.
  split; [reflexivity|]. split; [exact Hp|]. split.
  - unfold decrypt_mode. rewrite Hp.
    eapply hd_events_bind. reflexivity.
  - intros Hl.
    destruct (decrypt_mode_proceeds w key_filename _ _ Hp Hl)
      as (rc & tl & E & Hdc & _).
    rewrite E. unfold events. cbn [snd decrypt_calls]. now rewrite Hdc.
Qed.

Lemma decrypt_accepts_negative_ciphertext_witness :
  text "5" <> [] /\ forallb isdigit (text "5") = true
  /\ fst (load_private (lp64_world toy_key) (chars (lit "priv.key"))) = 0
  /\ decrypt_calls
       (events (decrypt_mode (lp64_world toy_key) (lit "priv.key")
                  (terminated ("-"%byte :: text "5")))) = [-5].
Proof.
  split; [discriminate|]. split; [reflexivity|]. split; [reflexivity|].
  apply (decrypt_accepts_negative_ciphertext (lp64_world toy_key)
           (lit "priv.key") (text "5")); [discriminate | reflexivity..].
Defined.

(** ** The genkey subcommand *)


(** [strtoul] on a string of decimal digits only. *)
Lemma strtoul_digits (ulong_max : Z) (ds : list byte) :
  ds <> [] ->
  forallb isdigit ds = true ->
  strtoul ulong_max (terminated ds)
  = if decimal ds >? ulong_max
    then {| ul_value := ulong_max; ul_endp := length ds;
            ul_errno := ERANGE |}
    else {| ul_value := decimal ds; ul_endp := length ds; ul_errno := 0 |}.
Proof.
  intros Hne Hd. unfold strtoul, terminated.
  rewrite chars_app_nul, chars_nul_free by now apply digits_nul_free.
  destruct ds as [|c r]; [congruence|].
  pose proof Hd as Hall. simpl in Hd. apply andb_prop in Hd as [Hc Hr].
  cbn [take_while]. rewrite (isdigit_not_space c Hc).
  cbn [length skipn].
  assert (Hm : is_minus c = false).
  { destruct (is_minus c) eqn:E; [|reflexivity].
    apply Byte.byte_dec_bl in E. subst c. discriminate. }
  assert (Hp : is_plus c = false).
  { destruct (is_plus c) eqn:E; [|reflexivity].
    apply Byte.byte_dec_bl in E. subst c. discriminate. }
  rewrite Hm, Hp. cbn [skipn take_while]. rewrite Hc.
  assert (Ht : take_while isdigit r = r).
  { clear - Hr. induction r as [|a r IH]; simpl in *; [reflexivity|].
    apply andb_prop in Hr as [Ha Hr]. now rewrite Ha, IH. }
  rewrite Ht. reflexivity.
Qed.

(** A decimal number above [UINT_MAX] is rejected by the test of
    [genkey_mode], by overflow of [strtoul] or by the range check. *)
Lemma digits_above_uint_max (w : world) (ds : list byte) :
  ds <> [] ->
  forallb isdigit ds = true ->
  UINT_MAX w < decimal ds ->
  strtoul_failed (strtoul (ULONG_MAX w) (terminated ds)) (terminated ds) = true
  \/ UINT_MAX w < ul_value (strtoul (ULONG_MAX w) (terminated ds)).
Proof.
  intros Hne Hd Hv. rewrite (strtoul_digits _ ds Hne Hd).
  destruct (decimal ds >? ULONG_MAX w).
  - left. unfold strtoul_failed. cbn [ul_errno ul_endp].
    change (negb (ERANGE =? 0)) with true.
    now rewrite orb_true_r.
  - right. exact Hv.
Qed.

(** ** Usage errors *)

Lemma streq_true (a b : buffer) : streq a b = true -> chars a = chars b.
Proof.
  unfold streq. destruct (list_eq_dec byte_eq_dec (chars a) (chars b));
    [trivial | discriminate].
Qed.

Lemma streq_chars (a a' b : buffer) :
  chars a = chars a' -> streq a b = streq a' b.
Proof. unfold streq. now intros ->. Qed.

(** C4, as stated, fails: [encrypt] with no further argument gets the
    message of its own branch on standard error, not the usage text. *)
Lemma encrypt_wrong_argc_no_usage :
  length [lit "rsa"; lit "encrypt"] <> 4%nat
  /\ events (main (lp64_world toy_key) [lit "rsa"; lit "encrypt"])
     = [Write stderr
          (text ("encrypt needs a key filename and a message" ++ nl))]
  /\ written stderr
       (events (main (lp64_world toy_key) [lit "rsa"; lit "encrypt"]))
     <> usage_text.
Proof.
  split; [discriminate|]. split; [reflexivity | vm_compute; discriminate].
Qed.

(** C4, amended: an invocation without a command or with an unrecognized
    command prints the usage text to standard error and exits with code
    1; [encrypt], [decrypt] or [genkey] with the wrong argument count
    prints the one-line message of that subcommand to standard error,
    nothing else, and exits with code 1. *)
Theorem bad_invocation_exits_1 (w : world) (argv : list buffer) :
  ((length argv < 2)%nat \/ recognized (nth 1 argv []) = false ->
   main w argv = (1, [Write stderr usage_text]))
  /\ (streq (nth 1 argv []) (lit "encrypt") = true ->
      length argv <> 4%nat ->
      main w argv
      = (1, [Write stderr
               (text ("encrypt needs a key filename and a message" ++ nl))]))
  /\ (streq (nth 1 argv []) (lit "decrypt") = true ->
      length argv <> 4%nat ->
      main w argv
      = (1, [Write stderr
               (text ("decrypt needs a key filename and a ciphertext"
                      ++ nl))]))
  /\ (streq (nth 1 argv []) (lit "genkey") = true ->
      length argv <> 3%nat ->
      main w argv
      = (1, [Write stderr (text ("genkey needs a number of bits" ++ nl))])).
Proof.
  destruct argv as [|prog [|command rest]].
  - repeat split; intros; try reflexivity; discriminate.
  - repeat split; intros; try reflexivity; discriminate.
  - cbn [nth]. unfold main. cbn [nth].
    replace (length (prog :: command :: rest) <? 2)%nat with false
      by (symmetry; apply Nat.ltb_ge; simpl; lia).
    fold (is_help command).
    repeat split.
    + intros [H|H]; [simpl in H; lia|].
      unfold recognized in H.
      apply orb_false_elim in H as [H Hg].
      apply orb_false_elim in H as [H Hd].
      apply orb_false_elim in H as [Hh He].
      rewrite Hh, He, Hd, Hg. reflexivity.
    + intros H Hl. pose proof (streq_true _ _ H) as Hc.
      unfold is_help. rewrite !(streq_chars command (lit "encrypt") _ Hc).
      apply Nat.eqb_neq in Hl. rewrite Hl. reflexivity.
    + intros H Hl. pose proof (streq_true _ _ H) as Hc.
      unfold is_help. rewrite !(streq_chars command (lit "decrypt") _ Hc).
      apply Nat.eqb_neq in Hl. rewrite Hl. reflexivity.
    + intros H Hl. pose proof (streq_true _ _ H) as Hc.
      unfold is_help. rewrite !(streq_chars command (lit "genkey") _ Hc).
      apply Nat.eqb_neq in Hl. rewrite Hl. reflexivity.
Qed.

Lemma bad_invocation_exits_1_witness :
  (recognized (nth 1 [lit "rsa"; lit "frobnicate"] []) = false
   /\ main (lp64_world toy_key) [lit "rsa"; lit "frobnicate"]
      = (1, [Write stderr usage_text]))
  /\ (streq (nth 1 [lit "rsa"; lit "genkey"] []) (lit "genkey") = true
      /\ length [lit "rsa"; lit "genkey"] <> 3%nat
      /\ main (lp64_world toy_key) [lit "rsa"; lit "genkey"]
         = (1, [Write stderr (text ("genkey needs a number of bits" ++ nl))])).
Proof.
  split.
  - split; [reflexivity|].
    apply (bad_invocation_exits_1 (lp64_world toy_key)
             [lit "rsa"; lit "frobnicate"]).
    right. reflexivity.
  - split; [reflexivity|]. split; [discriminate|].
    apply (bad_invocation_exits_1 (lp64_world toy_key)
             [lit "rsa"; lit "genkey"]); [reflexivity | discriminate].
Defined.

(* ================================================================== *)
(** * Further properties of the driver *)

(** ** The codec on C strings *)

Lemma pow256_pos (k : nat) : 0 < 256 ^ Z.of_nat k.
Proof. apply Z.pow_pos_nonneg; lia. Qed.

Lemma encode_terminated (s : list byte) :
  nul_free s = true -> encode (terminated s) = be_value s.
Proof.
  intros H. unfold terminated.
  now rewrite encode_chars, chars_app_nul, chars_nul_free.
Qed.

(** X1: [encode] loses nothing on C strings: two NUL-free messages with
    the same integer are the same message. *)
Theorem encode_injective (s t : list byte) :
  nul_free s = true -> nul_free t = true ->
  encode (terminated s) = encode (terminated t) -> s = t.
Proof.
  intros Hs Ht E. rewrite !encode_terminated in E by assumption.
  pose proof (mpz_export_be_value s (nul_free_hd s Hs)) as H1.
  pose proof (mpz_export_be_value t (nul_free_hd t Ht)) as H2.
  rewrite E, H2 in H1. now injection H1.
Qed.

Lemma encode_injective_witness :
  nul_free (text "hi") = true /\ nul_free (text "hi") = true
  /\ encode (terminated (text "hi")) = encode (terminated (text "hi"))
  /\ text "hi" = text "hi".
Proof.
  do 3 (split; [reflexivity|]).
  apply (encode_injective (text "hi") (text "hi")); reflexivity.
Defined.

(** X2: a nonempty NUL-free message of k bytes encodes to an integer
    with exactly k base-256 digits: 256^(k-1) <= encode(s) < 256^k.  In
    particular it is never 0. *)
Theorem encode_size (b : byte) (r : list byte) :
  nul_free (b :: r) = true ->
  256 ^ Z.of_nat (length r) <= encode (terminated (b :: r))
  < 256 ^ Z.of_nat (length (b :: r)).
Proof.
  intros Hn. rewrite encode_terminated by exact Hn.
  split.
  - apply be_value_lower. intros ->. discriminate.
  - apply be_value_bound.
Qed.

Lemma encode_size_witness :
  nul_free (x68 :: [x69]) = true
  /\ 256 ^ Z.of_nat (length [x69]) <= encode (terminated (x68 :: [x69]))
     < 256 ^ Z.of_nat (length (x68 :: [x69])).
Proof.
  split; [reflexivity|].
  apply (encode_size x68 [x69]). reflexivity.
Defined.

(** ** Printing and parsing decimal integers *)

Lemma isspace_not_nul (c : byte) : isspace c = true -> is_nul c = false.
Proof.
  unfold isspace. cbv zeta. intros H. apply is_nul_to_Z.
  apply orb_prop in H as [H|H].
  - apply Z.eqb_eq in H. lia.
  - apply andb_prop in H as [H _]. apply Z.leb_le in H. lia.
Qed.

Lemma spaces_nul_free (sp : list byte) :
  forallb isspace sp = true -> nul_free sp = true.
Proof.
  unfold nul_free. induction sp as [|c r IH]; simpl; intros H.
  - reflexivity.
  - apply andb_prop in H as [Hc Hr].
    rewrite (isspace_not_nul c Hc), IH by exact Hr. reflexivity.
Qed.

Lemma nul_free_app (s t : list byte) :
  nul_free s = true -> nul_free t = true -> nul_free (s ++ t) = true.
Proof.
  unfold nul_free. intros Hs Ht. rewrite forallb_app, Hs, Ht. reflexivity.
Qed.

Lemma isdigit_not_minus (c : byte) : isdigit c = true -> is_minus c = false.
Proof.
  intros H. destruct (is_minus c) eqn:E; [|reflexivity].
  apply Byte.byte_dec_bl in E. subst c. discriminate.
Qed.

Lemma isdigit_not_plus (c : byte) : isdigit c = true -> is_plus c = false.
Proof.
  intros H. destruct (is_plus c) eqn:E; [|reflexivity].
  apply Byte.byte_dec_bl in E. subst c. discriminate.
Qed.

Lemma scan_digits_spaces (sp : list byte) (acc : Z) :
  forallb isspace sp = true -> scan_digits acc sp = Some acc.
Proof.
  induction sp as [|c r IH]; simpl; intros H; [reflexivity|].
  apply andb_prop in H as [Hc Hr]. rewrite Hc. now apply IH.
Qed.

Lemma scan_digits_then_spaces (ds sp : list byte) (acc : Z) :
  forallb isdigit ds = true -> forallb isspace sp = true ->
  scan_digits acc (ds ++ sp)
  = Some (fold_left (fun a c => a * 10 + digit_value c) ds acc).
Proof.
  intros Hd Hs. revert acc.
  induction ds as [|c r IH]; intros acc; cbn [app fold_left].
  - now apply scan_digits_spaces.
  - simpl in Hd. apply andb_prop in Hd as [Hc Hr].
    cbn [scan_digits]. rewrite (isdigit_not_space c Hc), Hc. now apply IH.
Qed.

Lemma drop_while_spaces (p : byte -> bool) (sp : list byte) :
  forallb isspace sp = true ->
  drop_while (fun c => (p c || isspace c)%bool) sp = [].
Proof.
  induction sp as [|c r IH]; simpl; intros H; [reflexivity|].
  apply andb_prop in H as [Hc Hr]. rewrite Hc, orb_true_r. now apply IH.
Qed.

(** Skipping leading zeros and white space does not change what the
    conversion loop computes. *)
Lemma scan_digits_drop_zeros (ds sp : list byte) :
  forallb isdigit ds = true -> forallb isspace sp = true ->
  scan_digits 0
    (drop_while (fun c => (is_zero_digit c || isspace c)%bool) (ds ++ sp))
  = Some (decimal ds).
Proof.
  intros Hd Hs. induction ds as [|c r IH].
  - cbn [app]. now rewrite drop_while_spaces.
  - pose proof Hd as Hall. simpl in Hd. apply andb_prop in Hd as [Hc Hr].
    cbn [app drop_while]. rewrite (isdigit_not_space c Hc), orb_false_r.
    destruct (is_zero_digit c) eqn:Ez.
    + rewrite (IH Hr). apply Byte.byte_dec_bl in Ez. subst c. reflexivity.
    + change (c :: r ++ sp) with ((c :: r) ++ sp).
      now rewrite scan_digits_then_spaces.
Qed.

(** [mpz_set_str] on decimal digits followed by white space. *)
Lemma mpz_set_str_digits (ds sp : list byte) :
  ds <> [] ->
  forallb isdigit ds = true -> forallb isspace sp = true ->
  mpz_set_str (terminated (ds ++ sp)) = Some (decimal ds).
Proof.
  intros Hne Hd Hs. unfold mpz_set_str, terminated.
  rewrite chars_app_nul, chars_nul_free
    by (apply nul_free_app; [now apply digits_nul_free
                            | now apply spaces_nul_free]).
  destruct ds as [|c r]; [congruence|].
  pose proof Hd as Hall. simpl in Hd. apply andb_prop in Hd as [Hc Hr].
  cbn [app drop_while]. rewrite (isdigit_not_space c Hc).
  rewrite (isdigit_not_minus c Hc), Hc.
  change (c :: r ++ sp) with ((c :: r) ++ sp).
  now rewrite scan_digits_drop_zeros.
Qed.

(** The same after a minus sign. *)
Lemma mpz_set_str_minus_digits (ds sp : list byte) :
  ds <> [] ->
  forallb isdigit ds = true -> forallb isspace sp = true ->
  mpz_set_str (terminated ("-"%byte :: ds ++ sp)) = Some (- decimal ds).
Proof.
  intros Hne Hd Hs. unfold mpz_set_str, terminated.
  assert (Hch : chars (("-"%byte :: ds ++ sp) ++ [x00])
                = "-"%byte :: ds ++ sp).
  { rewrite chars_app_nul. apply chars_nul_free.
    change (nul_free ("-"%byte :: ds ++ sp)) with (nul_free (ds ++ sp)).
    apply nul_free_app; [now apply digits_nul_free
                        | now apply spaces_nul_free]. }
  rewrite Hch. clear Hch.
  change (drop_while isspace ("-"%byte :: ds ++ sp))
    with ("-"%byte :: ds ++ sp).
  cbv iota beta. change (is_minus "-"%byte) with true. cbv iota beta.
  destruct ds as [|c r]; [congruence|].
  pose proof Hd as Hall. simpl in Hd. apply andb_prop in Hd as [Hc Hr].
  cbn [app]. rewrite Hc.
  change (c :: r ++ sp) with ((c :: r) ++ sp).
  now rewrite scan_digits_drop_zeros.
Qed.

(** The characters printed for an unsigned decimal are digits, and
    reading them left to right rebuilds the number. *)
Lemma uint_text_digits (d : Decimal.uint) :
  forallb isdigit (text (NilEmpty.string_of_uint d)) = true.
Proof.
  induction d; simpl; [reflexivity | exact IHd ..].
Qed.

Lemma uint_text_acc (d : Decimal.uint) (acc : positive) :
  fold_left (fun a c => a * 10 + digit_value c)
    (text (NilEmpty.string_of_uint d)) (Z.pos acc)
  = Z.pos (Pos.of_uint_acc d acc).
Proof.
  revert acc. induction d; intros acc;
    try (change (text (NilEmpty.string_of_uint (Decimal.Nil))) with (@nil byte);
         reflexivity);
    cbn [NilEmpty.string_of_uint Pos.of_uint_acc];
    unfold text in *; cbn [list_byte_of_string list_ascii_of_string map];
    cbn [fold_left];
    match goal with
    | |- fold_left _ _ ?a = Z.pos (Pos.of_uint_acc _ ?p) =>
        replace a with (Z.pos p)
          by (unfold digit_value, to_Z; simpl Byte.to_N; lia)
    end; apply IHd.
Qed.

Lemma uint_text_value (d : Decimal.uint) :
  decimal (text (NilEmpty.string_of_uint d)) = Z.of_N (Pos.of_uint d).
Proof.
  unfold decimal.
  induction d;
    try (change (text (NilEmpty.string_of_uint (Decimal.Nil))) with (@nil byte);
         reflexivity);
    cbn [NilEmpty.string_of_uint Pos.of_uint];
    unfold text in *; cbn [list_byte_of_string list_ascii_of_string map];
    cbn [fold_left];
    try exact IHd;
    match goal with
    | |- fold_left _ _ ?a = Z.of_N (N.pos (Pos.of_uint_acc _ ?p)) =>
        change a with (Z.pos p)
    end; apply (uint_text_acc d).
Qed.

(** The digits printed for a positive number. *)
Lemma pos_text (p : positive) :
  text (NilZero.string_of_uint (Pos.to_uint p)) <> []
  /\ forallb isdigit (text (NilZero.string_of_uint (Pos.to_uint p))) = true
  /\ decimal (text (NilZero.string_of_uint (Pos.to_uint p))) = Z.pos p.
Proof.
  pose proof (DecimalPos.Unsigned.to_uint_nonnil p) as Hn.
  pose proof (DecimalPos.Unsigned.of_to p) as Hv.
  pose proof (uint_text_digits (Pos.to_uint p)) as Hd.
  pose proof (uint_text_value (Pos.to_uint p)) as Hval.
  unfold NilZero.string_of_uint.
  destruct (Pos.to_uint p) eqn:E; try congruence;
    (split; [discriminate|]; split; [exact Hd|]; rewrite Hval, Hv; reflexivity).
Qed.

(** What [gmp_printf("%Zd")] prints is read back by [mpz_set_str] as the
    same integer, also when white space follows. *)
Lemma mpz_set_str_printed (z : Z) (sp : list byte) :
  forallb isspace sp = true ->
  mpz_set_str (terminated (decimal_text z ++ sp)) = Some z.
Proof.
  intros Hs. unfold decimal_text, Z.to_int.
  destruct z as [|p|p].
  - apply (mpz_set_str_digits (text "0") sp); [discriminate | reflexivity | exact Hs].
  - cbn [NilZero.string_of_int].
    destruct (pos_text p) as (Hne & Hd & Hv).
    rewrite (mpz_set_str_digits _ sp Hne Hd Hs), Hv. reflexivity.
  - cbn [NilZero.string_of_int].
    destruct (pos_text p) as (Hne & Hd & Hv).
    change (text (String "-" (NilZero.string_of_uint (Pos.to_uint p))))
      with ("-"%byte :: text (NilZero.string_of_uint (Pos.to_uint p))).
    change (("-"%byte :: text (NilZero.string_of_uint (Pos.to_uint p))) ++ sp)
      with ("-"%byte :: text (NilZero.string_of_uint (Pos.to_uint p)) ++ sp).
    rewrite (mpz_set_str_minus_digits _ sp Hne Hd Hs), Hv. reflexivity.
Qed.

(** ** The encrypt subcommand *)

Lemma of_nat_not_minus_one (n : nat) : (Z.of_nat n =? -1) = false.
Proof. apply Z.eqb_neq. lia. Qed.

(** The trace of a successful [encrypt_mode]. *)
Lemma encrypt_mode_ok
  (w : world) (key_filename message : buffer) (key : rsa_key) :
  stdout_ok w = true ->
  load_public w (chars key_filename) = (0, key) ->
  encrypt_mode w key_filename message
  = (0, [Call_rsa_key_load_public (chars key_filename);
         Call_rsa_encrypt (encode message);
         Write stdout
           (decimal_text (encrypt_fn w (encode message) key) ++ text nl)]).
Proof.
  intros Hout Hl.
  unfold encrypt_mode, rsa_key_load_public, rsa_encrypt, gmp_printf_Zd_nl,
    fprintf.
  cbn [bind emit ret app]. rewrite Hl. cbn [bind emit ret app].
  rewrite Hout. cbn [bind emit ret app negb Z.eqb].
  rewrite of_nat_not_minus_one. reflexivity.
Qed.

(** X4: when the public key cannot be loaded, [encrypt] reports the file
    name on standard error and exits with code 1; the message is never
    handed to [rsa_encrypt] and nothing is written to standard output. *)
Theorem encrypt_key_load_failure
  (w : world) (prog key_filename message : buffer) :
  fst (load_public w (chars key_filename)) <> 0 ->
  main w [prog; lit "encrypt"; key_filename; message]
  = (1, [Call_rsa_key_load_public (chars key_filename);
         Write stderr (text "error reading key file " ++ chars key_filename
                       ++ text nl)]).
Proof.
  intros H. rewrite main_encrypt.
  unfold encrypt_mode, rsa_key_load_public. cbn [bind emit ret app].
  destruct (load_public w (chars key_filename)) as [rc key]. simpl in H.
  apply Z.eqb_neq in H. rewrite H. reflexivity.
Qed.

Lemma encrypt_key_load_failure_witness :
  fst (load_public (lp64_world_nokey toy_key) (chars (lit "k"))) <> 0
  /\ main (lp64_world_nokey toy_key) [lit "rsa"; lit "encrypt"; lit "k"; lit "hi"]
     = (1, [Call_rsa_key_load_public (chars (lit "k"));
            Write stderr (text "error reading key file " ++ chars (lit "k")
                          ++ text nl)]).
Proof.
  split; [discriminate|].
  apply (encrypt_key_load_failure (lp64_world_nokey toy_key)
           (lit "rsa") (lit "k") (lit "hi")).
  discriminate.
Defined.

(** X5: with the key loaded and a working standard output, [encrypt]
    exits with code 0 and its whole standard output is the decimal text
    of rsa_encrypt(encode(message)) followed by one newline; nothing goes
    to standard error. *)
Theorem encrypt_prints_ciphertext
  (w : world) (prog key_filename message : buffer) (key : rsa_key) :
  stdout_ok w = true ->
  load_public w (chars key_filename) = (0, key) ->
  exit_code (main w [prog; lit "encrypt"; key_filename; message]) = 0
  /\ written stdout
       (events (main w [prog; lit "encrypt"; key_filename; message]))
     = decimal_text (encrypt_fn w (be_value (chars message)) key) ++ text nl
  /\ written stderr
       (events (main w [prog; lit "encrypt"; key_filename; message])) = [].
Proof.
  intros Hout Hl. rewrite main_encrypt, (encrypt_mode_ok w _ _ key Hout Hl).
  rewrite encode_chars. unfold exit_code, events. cbn [fst snd written].
  rewrite app_nil_r. repeat split.
Qed.

Lemma encrypt_prints_ciphertext_witness :
  stdout_ok (lp64_world toy_key) = true
  /\ load_public (lp64_world toy_key) (chars (lit "k")) = (0, toy_key)
  /\ written stdout
       (events (main (lp64_world toy_key)
                  [lit "rsa"; lit "encrypt"; lit "k"; lit "A"]))
     = decimal_text (encrypt_fn (lp64_world toy_key)
                       (be_value (chars (lit "A"))) toy_key) ++ text nl.
Proof.
  do 2 (split; [reflexivity|]).
  apply (encrypt_prints_ciphertext (lp64_world toy_key)
           (lit "rsa") (lit "k") (lit "A") toy_key eq_refl eq_refl).
Defined.

(** ** The decrypt subcommand, continued *)

(** Writing a decoded nonzero integer with [fwrite(message, len, 1,
    stdout)] writes exactly its exported bytes as one element. *)
Lemma fwrite_decoded (w : world) (x : Z) :
  x <> 0 -> stdout_ok w = true ->
  fwrite w (fst (decode x)) (snd (decode x)) 1
  = (1%nat, [Write stdout (fst (mpz_export x))]).
Proof.
  intros Hx Hout. rewrite decode_eq. cbn [fst snd].
  pose proof (mpz_export_length x) as Hl.
  destruct (sizeinbase_256_bounds (Z.abs x) ltac:(lia)) as (k & Ek & _).
  assert (Hs : snd (mpz_export x) = S k) by exact Ek.
  unfold fwrite. rewrite Hs. cbn [Nat.eqb orb]. rewrite Hout.
  rewrite Nat.mul_1_r, <- Hs, <- Hl, firstn_app, firstn_all, Nat.sub_diag.
  cbn [firstn]. rewrite app_nil_r. reflexivity.
Qed.

(** The trace of a successful [decrypt_mode] on a nonzero plaintext. *)
Lemma decrypt_mode_ok
  (w : world) (key_filename c_str : buffer) (c : Z) (key : rsa_key) :
  mpz_set_str c_str = Some c ->
  load_private w (chars key_filename) = (0, key) ->
  decrypt_fn w c key <> 0 ->
  stdout_ok w = true ->
  decrypt_mode w key_filename c_str
  = (0, [Call_rsa_key_load_private (chars key_filename);
         Call_rsa_decrypt c;
         Write stdout (fst (mpz_export (decrypt_fn w c key)))]).
Proof.
  intros Hp Hl Hm Hout.
  pose proof (fwrite_decoded w _ Hm Hout) as Hw.
  unfold decrypt_mode, rsa_key_load_private, rsa_decrypt.
  rewrite Hp. cbn [bind emit ret app]. rewrite Hl. cbn [bind emit ret app].
  destruct (decode (decrypt_fn w c key)) as [message len].
  cbn [fst snd] in Hw. rewrite Hw. reflexivity.
Qed.

(** X7: when the ciphertext parses but the private key cannot be loaded,
    [decrypt] reports the file name on standard error and exits with code
    1; [rsa_decrypt] is never called and nothing is written to standard
    output. *)
Theorem decrypt_key_load_failure
  (w : world) (prog key_filename c_str : buffer) (c : Z) :
  mpz_set_str c_str = Some c ->
  fst (load_private w (chars key_filename)) <> 0 ->
  main w [prog; lit "decrypt"; key_filename; c_str]
  = (1, [Call_rsa_key_load_private (chars key_filename);
         Write stderr (text "error reading key file " ++ chars key_filename
                       ++ text nl)]).
Proof.
  intros Hp H. rewrite main_decrypt.
  unfold decrypt_mode, rsa_key_load_private. rewrite Hp.
  cbn [bind emit ret app].
  destruct (load_private w (chars key_filename)) as [rc key]. simpl in H.
  apply Z.eqb_neq in H. rewrite H. reflexivity.
Qed.

Lemma decrypt_key_load_failure_witness :
  mpz_set_str (lit "42") = Some 42
  /\ fst (load_private (lp64_world_nokey toy_key) (chars (lit "k"))) <> 0
  /\ main (lp64_world_nokey toy_key) [lit "rsa"; lit "decrypt"; lit "k"; lit "42"]
     = (1, [Call_rsa_key_load_private (chars (lit "k"));
            Write stderr (text "error reading key file " ++ chars (lit "k")
                          ++ text nl)]).
Proof.
  split; [reflexivity|]. split; [discriminate|].
  apply (decrypt_key_load_failure (lp64_world_nokey toy_key)
           (lit "rsa") (lit "k") (lit "42") 42); [reflexivity | discriminate].
Defined.

(** X8: when the decrypted integer m is not zero, the key loads and
    standard output works, [decrypt] exits with code 0 and its whole
    standard output is the minimal big-endian byte string of |m|: its
    value is |m|, its first byte is not zero, no newline or terminator is
    added, and zero bytes inside it are written like any other. *)
Theorem decrypt_writes_plaintext
  (w : world) (prog key_filename c_str : buffer) (c : Z) (key : rsa_key) :
  mpz_set_str c_str = Some c ->
  load_private w (chars key_filename) = (0, key) ->
  decrypt_fn w c key <> 0 ->
  stdout_ok w = true ->
  exit_code (main w [prog; lit "decrypt"; key_filename; c_str]) = 0
  /\ written stderr
       (events (main w [prog; lit "decrypt"; key_filename; c_str])) = []
  /\ be_value (written stdout
                 (events (main w [prog; lit "decrypt"; key_filename; c_str])))
     = Z.abs (decrypt_fn w c key)
  /\ hd_error (written stdout
                 (events (main w [prog; lit "decrypt"; key_filename; c_str])))
     <> Some x00
  /\ length (written stdout
               (events (main w [prog; lit "decrypt"; key_filename; c_str])))
     = sizeinbase_256 (Z.abs (decrypt_fn w c key)).
Proof.
  intros Hp Hl Hm Hout.
  rewrite main_decrypt, (decrypt_mode_ok w _ _ c key Hp Hl Hm Hout).
  unfold exit_code, events. cbn [fst snd written]. rewrite app_nil_r.
  split; [reflexivity|]. split; [reflexivity|]. split; [|split].
  - apply be_value_mpz_export.
  - destruct (fst (mpz_export (decrypt_fn w c key))) as [|b r] eqn:E;
      [discriminate|].
    simpl. intros H. injection H as ->.
    now apply (mpz_export_head _ x00 r E).
  - rewrite mpz_export_length. reflexivity.
Qed.

Lemma decrypt_writes_plaintext_witness :
  mpz_set_str (lit "8") = Some 8
  /\ load_private (lp64_world tiny_key) (chars (lit "k")) = (0, tiny_key)
  /\ decrypt_fn (lp64_world tiny_key) 8 tiny_key <> 0
  /\ stdout_ok (lp64_world tiny_key) = true
  /\ exit_code (main (lp64_world tiny_key)
                  [lit "rsa"; lit "decrypt"; lit "k"; lit "8"]) = 0.
Proof.
  assert (H : decrypt_fn (lp64_world tiny_key) 8 tiny_key <> 0)
    by discriminate.
  split; [reflexivity|]. split; [reflexivity|]. split; [exact H|].
  split; [reflexivity|].
  apply (decrypt_writes_plaintext (lp64_world tiny_key)
           (lit "rsa") (lit "k") (lit "8") 8 tiny_key
           eq_refl eq_refl H eq_refl).
Defined.

(** ** Ciphertexts as printed *)

(** X3: what [gmp_printf("%Zd")] prints for an integer, negative or not,
    is read back by [decrypt] as the same integer, also when white space
    (such as the newline [encrypt] prints) follows: no parse error is
    reported and, once the key is loaded, [rsa_decrypt] is called on
    exactly that integer. *)
Theorem decrypt_reads_printed_integer
  (w : world) (key_filename : buffer) (z : Z) (sp : list byte) :
  forallb isspace sp = true ->
  fst (load_private w (chars key_filename)) = 0 ->
  mpz_set_str (terminated (decimal_text z ++ sp)) = Some z
  /\ decrypt_calls
       (events (decrypt_mode w key_filename
                  (terminated (decimal_text z ++ sp)))) = [z].
Proof.
  intros Hs Hl. pose proof (mpz_set_str_printed z sp Hs) as Hp.
  split; [exact Hp|].
  destruct (decrypt_mode_proceeds w key_filename _ _ Hp Hl)
    as (rc & tl & E & Hdc & _).
  rewrite E. unfold events. cbn [snd decrypt_calls]. now rewrite Hdc.
Qed.

Lemma decrypt_reads_printed_integer_witness :
  forallb isspace (text nl) = true
  /\ fst (load_private (lp64_world tiny_key) (chars (lit "k"))) = 0
  /\ mpz_set_str (terminated (decimal_text (-2790) ++ text nl))
     = Some (-2790)
  /\ decrypt_calls
       (events (decrypt_mode (lp64_world tiny_key) (lit "k")
                  (terminated (decimal_text (-2790) ++ text nl))))
     = [-2790].
Proof.
  do 2 (split; [reflexivity|]).
  apply (decrypt_reads_printed_integer (lp64_world tiny_key) (lit "k")
           (-2790) (text nl)); reflexivity.
Defined.

(** ** Encrypting, then decrypting *)

(** X10: when the RSA library decrypts what it encrypted, the ciphertext
    line printed by [encrypt] for a nonempty NUL-free message, given to
    [decrypt] with or without its trailing newline (or other white
    space), makes [decrypt] write exactly the message to standard output
    and exit with code 0. *)
Theorem encrypt_then_decrypt
  (w : world) (prog pub_filename priv_filename : buffer)
  (msg sp : list byte) (pub priv : rsa_key) :
  stdout_ok w = true ->
  load_public w (chars pub_filename) = (0, pub) ->
  load_private w (chars priv_filename) = (0, priv) ->
  nul_free msg = true ->
  msg <> [] ->
  decrypt_fn w (encrypt_fn w (encode (terminated msg)) pub) priv
  = encode (terminated msg) ->
  forallb isspace sp = true ->
  written stdout
    (events (main w [prog; lit "encrypt"; pub_filename; terminated msg]))
  = decimal_text (encrypt_fn w (encode (terminated msg)) pub) ++ text nl
  /\ main w [prog; lit "decrypt"; priv_filename;
             terminated
               (decimal_text (encrypt_fn w (encode (terminated msg)) pub)
                ++ sp)]
     = (0, [Call_rsa_key_load_private (chars priv_filename);
            Call_rsa_decrypt (encrypt_fn w (encode (terminated msg)) pub);
            Write stdout msg]).
Proof.
  intros Hout Hpub Hpriv Hn Hne Hrt Hsp. split.
  - rewrite main_encrypt, (encrypt_mode_ok w _ _ pub Hout Hpub).
    unfold events. cbn [snd written]. now rewrite app_nil_r.
  - rewrite main_decrypt.
    set (c := encrypt_fn w (encode (terminated msg)) pub) in *.
    assert (Hm : decrypt_fn w c priv <> 0).
    { rewrite Hrt. destruct msg as [|b r]; [congruence|].
      rewrite (encode_terminated _ Hn).
      assert (Hb : b <> x00) by (intros ->; discriminate).
      pose proof (be_value_lower b r Hb).
      pose proof (pow256_pos (length r)). lia. }
    rewrite (decrypt_mode_ok w _ _ c priv
               (mpz_set_str_printed c sp Hsp) Hpriv Hm Hout).
    rewrite Hrt, (encode_terminated msg Hn).
    now rewrite (mpz_export_be_value msg (nul_free_hd msg Hn)).
Qed.

Lemma encrypt_then_decrypt_witness :
  stdout_ok (lp64_world tiny_key) = true
  /\ load_public (lp64_world tiny_key) (chars (lit "pub")) = (0, tiny_key)
  /\ load_private (lp64_world tiny_key) (chars (lit "priv")) = (0, tiny_key)
  /\ nul_free [x02] = true
  /\ [x02] <> []
  /\ decrypt_fn (lp64_world tiny_key)
       (encrypt_fn (lp64_world tiny_key) (encode (terminated [x02])) tiny_key)
       tiny_key
     = encode (terminated [x02])
  /\ forallb isspace (text nl) = true
  /\ main (lp64_world tiny_key)
       [lit "rsa"; lit "decrypt"; lit "priv";
        terminated
          (decimal_text (encrypt_fn (lp64_world tiny_key)
                           (encode (terminated [x02])) tiny_key)
           ++ text nl)]
     = (0, [Call_rsa_key_load_private (chars (lit "priv"));
            Call_rsa_decrypt (encrypt_fn (lp64_world tiny_key)
                                (encode (terminated [x02])) tiny_key);
            Write stdout [x02]]).
Proof.
  do 4 (split; [reflexivity|]). split; [discriminate|].
  do 2 (split; [reflexivity|]).
  apply (encrypt_then_decrypt (lp64_world tiny_key)
           (lit "rsa") (lit "pub") (lit "priv") [x02] (text nl)
           tiny_key tiny_key);
    [reflexivity | reflexivity | reflexivity | reflexivity
    | discriminate | reflexivity | reflexivity].
Defined.

(** ** Blank ciphertexts *)

Lemma drop_while_all (p : byte -> bool) (s : list byte) :
  forallb p s = true -> drop_while p s = [].
Proof.
  induction s as [|c r IH]; simpl; intros H; [reflexivity|].
  apply andb_prop in H as [Hc Hr]. rewrite Hc. now apply IH.
Qed.

(** X11: an empty ciphertext argument, or one of white space only, is a
    parse error: [decrypt] reports "could not parse ciphertext", exits
    with code 1 and does not touch the key file. *)
Theorem decrypt_blank_ciphertext
  (w : world) (prog key_filename c_str : buffer) :
  forallb isspace (chars c_str) = true ->
  main w [prog; lit "decrypt"; key_filename; c_str]
  = (1, [Write stderr (text ("could not parse ciphertext" ++ nl))]).
Proof.
  intros H. rewrite main_decrypt. apply decrypt_mode_parse_error.
  unfold mpz_set_str. now rewrite (drop_while_all isspace _ H).
Qed.

Lemma decrypt_blank_ciphertext_witness :
  forallb isspace (chars (lit "")) = true
  /\ forallb isspace (chars (lit "  ")) = true
  /\ main (lp64_world toy_key) [lit "rsa"; lit "decrypt"; lit "k"; lit ""]
     = (1, [Write stderr (text ("could not parse ciphertext" ++ nl))])
  /\ main (lp64_world toy_key) [lit "rsa"; lit "decrypt"; lit "k"; lit "  "]
     = (1, [Write stderr (text ("could not parse ciphertext" ++ nl))]).
Proof.
  do 2 (split; [reflexivity|]). split.
  - apply (decrypt_blank_ciphertext (lp64_world toy_key)
             (lit "rsa") (lit "k") (lit "")). reflexivity.
  - apply (decrypt_blank_ciphertext (lp64_world toy_key)
             (lit "rsa") (lit "k") (lit "  ")). reflexivity.
Defined.

(** ** Help *)

(** X12: with [-h], [--help] or [help] as the command, whatever and
    however many arguments follow, the program exits with code 0, calls
    nothing in the RSA library, writes nothing to standard error, and
    writes the usage text to standard output when it can be written. *)
Theorem help_prints_usage (w : world) (argv : list buffer) :
  is_help (nth 1 argv []) = true ->
  main w argv
  = (0, if stdout_ok w then [Write stdout usage_text] else []).
Proof.
  intros H. destruct argv as [|prog [|command rest]];
    [discriminate | discriminate |].
  cbn [nth] in H. unfold main. cbn [nth].
  replace (length (prog :: command :: rest) <? 2)%nat with false
    by (symmetry; apply Nat.ltb_ge; simpl; lia).
  fold (is_help command). rewrite H.
  unfold usage, fprintf. destruct (stdout_ok w); reflexivity.
Qed.

Lemma help_prints_usage_witness :
  is_help (nth 1 [lit "rsa"; lit "--help"; lit "genkey"; lit "x"] []) = true
  /\ main (lp64_world toy_key) [lit "rsa"; lit "--help"; lit "genkey"; lit "x"]
     = (0, [Write stdout usage_text]).
Proof.
  split; [reflexivity|].
  apply (help_prints_usage (lp64_world toy_key)
           [lit "rsa"; lit "--help"; lit "genkey"; lit "x"]).
  reflexivity.
Defined.

(** ** The exit code contract *)

Lemma encrypt_mode_contract (w : world) (key_filename message : buffer) :
  (exit_code (encrypt_mode w key_filename message) = 0
   /\ written stderr (events (encrypt_mode w key_filename message)) = [])
  \/ (exit_code (encrypt_mode w key_filename message) = 1
      /\ written stderr (events (encrypt_mode w key_filename message)) <> []).
Proof.
  unfold encrypt_mode, rsa_key_load_public, rsa_encrypt, gmp_printf_Zd_nl,
    fprintf, done.
  cbn [bind emit ret app].
  destruct (load_public w (chars key_filename)) as [rc key].
  cbn [bind emit ret app].
  destruct (Z.eqb_spec rc 0) as [->|Hrc]; cbn [negb bind emit ret app].
  - destruct (stdout_ok w); cbn [bind emit ret app].
    + rewrite of_nat_not_minus_one. left. split; [reflexivity|].
      unfold events. cbn [snd written]. reflexivity.
    + right. split; [reflexivity|]. discriminate.
  - right. split; [reflexivity|]. discriminate.
Qed.

Lemma decrypt_mode_contract (w : world) (key_filename c_str : buffer) :
  (exit_code (decrypt_mode w key_filename c_str) = 0
   /\ written stderr (events (decrypt_mode w key_filename c_str)) = [])
  \/ (exit_code (decrypt_mode w key_filename c_str) = 1
      /\ written stderr (events (decrypt_mode w key_filename c_str)) <> []).
Proof.
  unfold decrypt_mode, rsa_key_load_private, rsa_decrypt, fwrite, fprintf,
    done.
  destruct (mpz_set_str c_str) as [c|];
    [|right; split; [reflexivity | discriminate]].
  cbn [bind emit ret app].
  destruct (load_private w (chars key_filename)) as [rc key].
  cbn [bind emit ret app].
  destruct (Z.eqb_spec rc 0) as [->|Hrc]; cbn [negb bind emit ret app];
    [|right; split; [reflexivity | discriminate]].
  destruct (decode (decrypt_fn w c key)) as [message len].
  destruct len as [|len]; cbn [Nat.eqb orb bind emit ret app negb];
    [right; split; [reflexivity | discriminate]|].
  destruct (stdout_ok w); cbn [Nat.eqb orb bind emit ret app negb].
  - left. split; reflexivity.
  - right. split; [reflexivity | discriminate].
Qed.

Lemma genkey_mode_contract (w : world) (numbits_str : buffer) :
  (exit_code (genkey_mode w numbits_str) = 0
   /\ written stderr (events (genkey_mode w numbits_str)) = [])
  \/ (exit_code (genkey_mode w numbits_str) = 1
      /\ (written stderr (events (genkey_mode w numbits_str)) <> []
          \/ calls_genkey (events (genkey_mode w numbits_str)) = true)).
Proof.
  unfold genkey_mode, rsa_genkey, rsa_key_write, fprintf, done. cbv zeta.
  destruct (_ || _ || _)%bool;
    [right; split; [reflexivity | left; discriminate]|].
  destruct (_ >? _);
    [right; split; [reflexivity | left; discriminate]|].
  cbn [bind emit ret app].
  destruct (key_write_fn w _) as [bs rc].
  destruct bs as [|b bs]; cbn [bind emit ret app];
    destruct (rc =? -1);
    solve [ left; split; reflexivity
          | right; split; [reflexivity | right; reflexivity] ].
Qed.

(** X13: the exit code of every invocation is 0 or 1.  With exit code 0
    nothing has been written to standard error; with exit code 1 a
    message has been written to standard error, unless the failure came
    after [rsa_genkey] was called (when only writing the key can fail). *)
Theorem exit_code_contract (w : world) (argv : list buffer) :
  (exit_code (main w argv) = 0
   /\ written stderr (events (main w argv)) = [])
  \/ (exit_code (main w argv) = 1
      /\ (written stderr (events (main w argv)) <> []
          \/ calls_genkey (events (main w argv)) = true)).
Proof.
  unfold main.
  destruct (length argv <? 2)%nat;
    [right; split; [reflexivity | left; discriminate]|].
  destruct (_ || _ || _)%bool.
  { left. unfold usage, fprintf. destruct (stdout_ok w); split; reflexivity. }
  destruct (streq (nth 1 argv []) (lit "encrypt")).
  { destruct (Nat.eqb (length argv) 4); cbn [negb];
      [|right; split; [reflexivity | left; discriminate]].
    destruct (encrypt_mode_contract w (nth 2 argv []) (nth 3 argv []))
      as [[H1 H2]|[H1 H2]]; [left | right]; split; auto. }
  destruct (streq (nth 1 argv []) (lit "decrypt")).
  { destruct (Nat.eqb (length argv) 4); cbn [negb];
      [|right; split; [reflexivity | left; discriminate]].
    destruct (decrypt_mode_contract w (nth 2 argv []) (nth 3 argv []))
      as [[H1 H2]|[H1 H2]]; [left | right]; split; auto. }
  destruct (streq (nth 1 argv []) (lit "genkey")).
  { destruct (Nat.eqb (length argv) 3); cbn [negb];
      [|right; split; [reflexivity | left; discriminate]].
    apply genkey_mode_contract. }
  right. split; [reflexivity | left; discriminate].
Qed.

(** ** The genkey subcommand, continued *)

Lemma decimal_acc_nonneg (ds : list byte) (acc : Z) :
  forallb isdigit ds = true -> 0 <= acc ->
  0 <= fold_left (fun a c => a * 10 + digit_value c) ds acc.
Proof.
  revert acc. induction ds as [|c r IH]; simpl; intros acc H Ha; [exact Ha|].
  apply andb_prop in H as [Hc Hr]. apply IH; [exact Hr|].
  apply isdigit_range in Hc. unfold digit_value. lia.
Qed.

Lemma decimal_nonneg (ds : list byte) :
  forallb isdigit ds = true -> 0 <= decimal ds.
Proof. intros H. apply decimal_acc_nonneg; [exact H | lia]. Qed.

Lemma take_while_all (p : byte -> bool) (s tl : list byte) :
  forallb p s = true ->
  match tl with [] => True | c :: _ => p c = false end ->
  take_while p (s ++ tl) = s.
Proof.
  intros Hs Ht. induction s as [|a s IH]; simpl in *.
  - destruct tl as [|c tl]; simpl; [reflexivity | now rewrite Ht].
  - apply andb_prop in Hs as [Ha Hs]. now rewrite Ha, IH.
Qed.

Lemma chars_app_nul_free (s r : list byte) :
  nul_free s = true -> chars (s ++ r) = s ++ chars r.
Proof.
  unfold chars, nul_free. induction s as [|a s IH]; simpl; intros H.
  - reflexivity.
  - apply andb_prop in H as [Ha Hs]. now rewrite Ha, IH.
Qed.

Lemma nth_length_app (s : list byte) (c : byte) (r : list byte) :
  nth (length s) (s ++ c :: r) x00 = c.
Proof. rewrite app_nth2, Nat.sub_diag by lia. reflexivity. Qed.

(** [strtoul] on a string that starts with decimal digits. *)
Lemma strtoul_unsigned (ulong_max : Z) (nptr : buffer) (ds tl : list byte) :
  chars nptr = ds ++ tl ->
  ds <> [] ->
  forallb isdigit ds = true ->
  match tl with [] => True | c :: _ => isdigit c = false end ->
  strtoul ulong_max nptr
  = if decimal ds >? ulong_max
    then {| ul_value := ulong_max; ul_endp := length ds;
            ul_errno := ERANGE |}
    else {| ul_value := decimal ds; ul_endp := length ds; ul_errno := 0 |}.
Proof.
  intros Hch Hne Hd Ht. unfold strtoul. rewrite Hch.
  destruct ds as [|c r]; [congruence|].
  pose proof Hd as Hall. simpl in Hd. apply andb_prop in Hd as [Hc Hr].
  cbn [app take_while]. rewrite (isdigit_not_space c Hc).
  cbn [length skipn].
  rewrite (isdigit_not_minus c Hc), (isdigit_not_plus c Hc).
  cbn [skipn].
  change (c :: r ++ tl) with ((c :: r) ++ tl).
  rewrite (take_while_all isdigit (c :: r) tl Hall Ht). reflexivity.
Qed.

(** [strtoul] on a minus sign followed by decimal digits only. *)
Lemma strtoul_minus (ulong_max : Z) (ds : list byte) :
  ds <> [] ->
  forallb isdigit ds = true ->
  strtoul ulong_max (terminated ("-"%byte :: ds))
  = if decimal ds >? ulong_max
    then {| ul_value := ulong_max; ul_endp := S (length ds);
            ul_errno := ERANGE |}
    else {| ul_value := (- decimal ds) mod (ulong_max + 1);
            ul_endp := S (length ds); ul_errno := 0 |}.
Proof.
  intros Hne Hd. unfold strtoul, terminated.
  assert (Hch : chars (("-"%byte :: ds) ++ [x00]) = "-"%byte :: ds).
  { rewrite chars_app_nul. apply chars_nul_free.
    change (nul_free ("-"%byte :: ds)) with (nul_free ds).
    now apply digits_nul_free. }
  rewrite Hch. clear Hch.
  change (take_while isspace ("-"%byte :: ds)) with (@nil byte).
  cbn [length skipn]. change (is_minus "-"%byte) with true.
  cbv iota beta. cbn [skipn].
  assert (Ht : take_while isdigit ds = ds).
  { pose proof (take_while_all isdigit ds [] Hd I) as H.
    now rewrite app_nil_r in H. }
  rewrite Ht.
  destruct ds as [|c r]; [congruence|]. reflexivity.
Qed.

(** [genkey_mode] once the argument has passed both tests. *)
Lemma genkey_mode_accepts (w : world) (numbits_str : buffer) :
  strtoul_failed (strtoul (ULONG_MAX w) numbits_str) numbits_str = false ->
  0 <= ul_value (strtoul (ULONG_MAX w) numbits_str) <= UINT_MAX w ->
  genkey_mode w numbits_str
  = bind (rsa_genkey w (ul_value (strtoul (ULONG_MAX w) numbits_str)))
      (fun key => bind (rsa_key_write w key)
                    (fun rc => if rc =? -1 then done 1 else done 0)).
Proof.
  intros Hf [Hlo Hhi]. unfold genkey_mode. cbv zeta.
  fold (strtoul_failed (strtoul (ULONG_MAX w) numbits_str) numbits_str).
  rewrite Hf.
  replace (ul_value (strtoul (ULONG_MAX w) numbits_str) >? UINT_MAX w)
    with false by (symmetry; rewrite Z.gtb_ltb; apply Z.ltb_ge; exact Hhi).
  rewrite Z.mod_small by lia. reflexivity.
Qed.

(** What a run of [rsa_genkey] followed by [rsa_key_write] shows. *)
Lemma generate_and_write (w : world) (numbits : Z) :
  exists tl,
    bind (rsa_genkey w numbits)
      (fun key => bind (rsa_key_write w key)
                    (fun rc => if rc =? -1 then done 1 else done 0))
    = ((if snd (key_write_fn w (genkey_fn w numbits)) =? -1 then 1 else 0),
       Call_rsa_genkey numbits :: Call_rsa_key_write :: tl)
    /\ written stdout tl = fst (key_write_fn w (genkey_fn w numbits))
    /\ written stderr tl = [].
Proof.
  unfold rsa_genkey, rsa_key_write, done. cbn [bind emit ret app].
  destruct (key_write_fn w (genkey_fn w numbits)) as [bs rc].
  cbn [fst snd].
  destruct bs as [|b bs]; cbn [bind emit ret app]; destruct (rc =? -1);
    eexists; (split; [reflexivity|]); cbn [written];
    rewrite ?app_nil_r; split; reflexivity.
Qed.

(** X14: a bit count written as decimal digits with a value of at most
    [UINT_MAX] is passed unchanged to [rsa_genkey], which is called first
    and once; the generated key is then written and standard output
    holds exactly what [rsa_key_write] wrote.  Nothing goes to standard
    error, and the exit code is 1 exactly when [rsa_key_write] returned
    -1. *)
Theorem genkey_generates (w : world) (prog : buffer) (ds : list byte) :
  ds <> [] ->
  forallb isdigit ds = true ->
  decimal ds <= UINT_MAX w ->
  UINT_MAX w <= ULONG_MAX w ->
  hd_error (events (main w [prog; lit "genkey"; terminated ds]))
  = Some (Call_rsa_genkey (decimal ds))
  /\ written stdout (events (main w [prog; lit "genkey"; terminated ds]))
     = fst (key_write_fn w (genkey_fn w (decimal ds)))
  /\ written stderr (events (main w [prog; lit "genkey"; terminated ds])) = []
  /\ exit_code (main w [prog; lit "genkey"; terminated ds])
     = (if snd (key_write_fn w (genkey_fn w (decimal ds))) =? -1
        then 1 else 0).
Proof.
  intros Hne Hd Hv Hu. rewrite main_genkey.
  pose proof (decimal_nonneg ds Hd) as H0.
  assert (Hs : strtoul (ULONG_MAX w) (terminated ds)
               = {| ul_value := decimal ds; ul_endp := length ds;
                    ul_errno := 0 |}).
  { rewrite (strtoul_digits _ ds Hne Hd).
    replace (decimal ds >? ULONG_MAX w) with false
      by (symmetry; rewrite Z.gtb_ltb; apply Z.ltb_ge; lia).
    reflexivity. }
  rewrite genkey_mode_accepts; rewrite Hs; cbn [ul_value ul_endp ul_errno].
  - destruct (generate_and_write w (decimal ds)) as (tl & E & Ho & He).
    rewrite E. unfold exit_code, events. cbn [fst snd hd_error written].
    repeat split; assumption.
  - unfold strtoul_failed. cbn [ul_value ul_endp ul_errno].
    unfold terminated. rewrite nth_length_app.
    destruct ds; [congruence | reflexivity].
  - lia.
Qed.

Lemma genkey_generates_witness :
  text "1024" <> [] /\ forallb isdigit (text "1024") = true
  /\ decimal (text "1024") <= UINT_MAX (lp64_world toy_key)
  /\ UINT_MAX (lp64_world toy_key) <= ULONG_MAX (lp64_world toy_key)
  /\ hd_error (events (main (lp64_world toy_key)
                         [lit "rsa"; lit "genkey"; terminated (text "1024")]))
     = Some (Call_rsa_genkey (decimal (text "1024"))).
Proof.
  split; [discriminate|]. split; [reflexivity|].
  split; [vm_compute; discriminate|]. split; [vm_compute; discriminate|].
  apply (genkey_generates (lp64_world toy_key) (lit "rsa") (text "1024"));
    [discriminate | reflexivity | vm_compute; discriminate
    | vm_compute; discriminate].
Defined.

Lemma forallb_skipn (q : byte -> bool) (n : nat) (s : list byte) :
  forallb q s = true -> forallb q (skipn n s) = true.
Proof.
  revert s. induction n as [|n IH]; intros s H; [exact H|].
  destruct s as [|c r]; [reflexivity|].
  simpl in H. apply andb_prop in H as [_ Hr]. cbn [skipn]. now apply IH.
Qed.

Lemma take_while_none (p : byte -> bool) (s : list byte) :
  forallb (fun c => negb (p c)) s = true -> take_while p s = [].
Proof.
  destruct s as [|c r]; simpl; intros H; [reflexivity|].
  apply andb_prop in H as [Hc _]. apply negb_true_iff in Hc. now rewrite Hc.
Qed.

(** Without a digit [strtoul] converts nothing. *)
Lemma strtoul_no_digit (ulong_max : Z) (nptr : buffer) :
  forallb (fun c => negb (isdigit c)) (chars nptr) = true ->
  strtoul ulong_max nptr = {| ul_value := 0; ul_endp := 0; ul_errno := 0 |}.
Proof.
  intros H. unfold strtoul. cbv zeta.
  set (s1 := skipn (length (take_while isspace (chars nptr))) (chars nptr)).
  assert (H1 : forallb (fun c => negb (isdigit c)) s1 = true)
    by now apply forallb_skipn.
  destruct (match s1 with
            | [] => (false, 0%nat)
            | c :: _ => if is_minus c then (true, 1%nat)
                        else if is_plus c then (false, 1%nat)
                        else (false, 0%nat)
            end) as [negative sgn].
  now rewrite (take_while_none isdigit _ (forallb_skipn _ sgn _ H1)).
Qed.

(** X15: a bit-count argument without any digit (the empty string, a
    lone sign, letters, white space) is rejected with "could not parse
    integer" and exit code 1, before any key is generated. *)
Theorem genkey_no_digit (w : world) (prog numbits_str : buffer) :
  forallb (fun c => negb (isdigit c)) (chars numbits_str) = true ->
  main w [prog; lit "genkey"; numbits_str]
  = (1, [Write stderr (text ("could not parse integer" ++ nl))]).
Proof.
  intros H. rewrite main_genkey. unfold genkey_mode. cbv zeta.
  rewrite (strtoul_no_digit _ _ H). reflexivity.
Qed.

Lemma genkey_no_digit_witness :
  forallb (fun c => negb (isdigit c)) (chars (lit "")) = true
  /\ forallb (fun c => negb (isdigit c)) (chars (lit " -x")) = true
  /\ main (lp64_world toy_key) [lit "rsa"; lit "genkey"; lit ""]
     = (1, [Write stderr (text ("could not parse integer" ++ nl))])
  /\ main (lp64_world toy_key) [lit "rsa"; lit "genkey"; lit " -x"]
     = (1, [Write stderr (text ("could not parse integer" ++ nl))]).
Proof.
  do 2 (split; [reflexivity|]). split.
  - apply (genkey_no_digit (lp64_world toy_key) (lit "rsa") (lit "")).
    reflexivity.
  - apply (genkey_no_digit (lp64_world toy_key) (lit "rsa") (lit " -x")).
    reflexivity.
Defined.

(** X16: a bit count followed by anything at all, even a single blank or
    newline, is rejected with "could not parse integer" and exit code 1:
    unlike the ciphertext of [decrypt], the argument of [genkey] may not
    have trailing white space. *)
Theorem genkey_trailing_characters
  (w : world) (prog : buffer) (ds : list byte) (c : byte) (rest : list byte) :
  ds <> [] ->
  forallb isdigit ds = true ->
  isdigit c = false ->
  is_nul c = false ->
  main w [prog; lit "genkey"; ds ++ c :: rest]
  = (1, [Write stderr (text ("could not parse integer" ++ nl))]).
Proof.
  intros Hne Hd Hc Hn. rewrite main_genkey.
  assert (Hch : chars (ds ++ c :: rest) = ds ++ c :: chars rest).
  { rewrite chars_app_nul_free by now apply digits_nul_free.
    unfold chars. cbn [take_while]. now rewrite Hn. }
  pose proof (strtoul_unsigned (ULONG_MAX w) _ ds (c :: chars rest)
                Hch Hne Hd Hc) as Hs.
  assert (Hf : strtoul_failed (strtoul (ULONG_MAX w) (ds ++ c :: rest))
                 (ds ++ c :: rest) = true).
  { unfold strtoul_failed. rewrite Hs.
    destruct (decimal ds >? ULONG_MAX w); cbn [ul_endp ul_errno];
      rewrite nth_length_app, Hn; cbn [negb]; apply orb_true_r. }
  unfold genkey_mode. cbv zeta.
  fold (strtoul_failed (strtoul (ULONG_MAX w) (ds ++ c :: rest))
          (ds ++ c :: rest)).
  rewrite Hf. reflexivity.
Qed.

Lemma genkey_trailing_characters_witness :
  text "1024" <> [] /\ forallb isdigit (text "1024") = true
  /\ isdigit x0a = false /\ is_nul x0a = false
  /\ main (lp64_world toy_key)
       [lit "rsa"; lit "genkey"; text "1024" ++ x0a :: [x00]]
     = (1, [Write stderr (text ("could not parse integer" ++ nl))]).
Proof.
  split; [discriminate|]. do 3 (split; [reflexivity|]).
  apply (genkey_trailing_characters (lp64_world toy_key) (lit "rsa")
           (text "1024") x0a [x00]);
    [discriminate | reflexivity | reflexivity | reflexivity].
Defined.

(** X17: a minus sign before the bit count is not an error in itself:
    "-v" with 0 < v <= ULONG_MAX is read as ULONG_MAX + 1 - v.  When that
    exceeds [UINT_MAX] the argument is rejected as too large; otherwise
    [rsa_genkey] is called with that many bits. *)
Theorem genkey_negative_numbits (w : world) (prog : buffer) (ds : list byte) :
  ds <> [] ->
  forallb isdigit ds = true ->
  0 < decimal ds <= ULONG_MAX w ->
  (UINT_MAX w < ULONG_MAX w + 1 - decimal ds ->
   main w [prog; lit "genkey"; terminated ("-"%byte :: ds)]
   = (1, [Write stderr (text ("integer is too large" ++ nl))]))
  /\ (ULONG_MAX w + 1 - decimal ds <= UINT_MAX w ->
      hd_error
        (events (main w [prog; lit "genkey"; terminated ("-"%byte :: ds)]))
      = Some (Call_rsa_genkey (ULONG_MAX w + 1 - decimal ds))).
Proof.
  intros Hne Hd [Hlo Hhi]. rewrite main_genkey.
  assert (Hs : strtoul (ULONG_MAX w) (terminated ("-"%byte :: ds))
               = {| ul_value := ULONG_MAX w + 1 - decimal ds;
                    ul_endp := S (length ds); ul_errno := 0 |}).
  { rewrite (strtoul_minus _ ds Hne Hd).
    replace (decimal ds >? ULONG_MAX w) with false
      by (symmetry; rewrite Z.gtb_ltb; apply Z.ltb_ge; lia).
    f_equal. symmetry. apply (Z.mod_unique _ _ (-1)); lia. }
  assert (Hf : strtoul_failed (strtoul (ULONG_MAX w)
                                 (terminated ("-"%byte :: ds)))
                 (terminated ("-"%byte :: ds)) = false).
  { rewrite Hs. unfold strtoul_failed. cbn [ul_endp ul_errno].
    change (S (length ds)) with (length ("-"%byte :: ds)).
    unfold terminated. rewrite nth_length_app. reflexivity. }
  split; intros H.
  - unfold genkey_mode. cbv zeta.
    fold (strtoul_failed (strtoul (ULONG_MAX w)
                            (terminated ("-"%byte :: ds)))
            (terminated ("-"%byte :: ds))).
    rewrite Hf, Hs. cbn [ul_value].
    replace (ULONG_MAX w + 1 - decimal ds >? UINT_MAX w) with true
      by (symmetry; apply Z.gtb_lt; lia).
    reflexivity.
  - rewrite genkey_mode_accepts;
      [rewrite Hs; cbn [ul_value] | exact Hf | rewrite Hs; cbn [ul_value]; lia].
    destruct (generate_and_write w (ULONG_MAX w + 1 - decimal ds))
      as (tl & E & _). rewrite E. reflexivity.
Qed.

Lemma genkey_negative_numbits_witness :
  text "18446744073709551615" <> []
  /\ forallb isdigit (text "18446744073709551615") = true
  /\ 0 < decimal (text "18446744073709551615")
     <= ULONG_MAX (lp64_world toy_key)
  /\ hd_error
       (events (main (lp64_world toy_key)
                  [lit "rsa"; lit "genkey";
                   terminated ("-"%byte :: text "18446744073709551615")]))
     = Some (Call_rsa_genkey
               (ULONG_MAX (lp64_world toy_key) + 1
                - decimal (text "18446744073709551615"))).
Proof.
  assert (H : 0 < decimal (text "18446744073709551615")
              <= ULONG_MAX (lp64_world toy_key))
    by (vm_compute; split; [reflexivity | discriminate]).
  split; [discriminate|]. split; [reflexivity|]. split; [exact H|].
  apply (genkey_negative_numbits (lp64_world toy_key) (lit "rsa")
           (text "18446744073709551615"));
    [discriminate | reflexivity | exact H | vm_compute; discriminate].
Defined.

Lemma skipn_length_app (s r : list byte) : skipn (length s) (s ++ r) = r.
Proof. induction s as [|a s IH]; simpl; [reflexivity | exact IH]. Qed.

(** [strtoul] on white space, a plus sign and decimal digits. *)
Lemma strtoul_plus (ulong_max : Z) (sp ds : list byte) :
  forallb isspace sp = true ->
  ds <> [] ->
  forallb isdigit ds = true ->
  strtoul ulong_max (terminated (sp ++ "+"%byte :: ds))
  = if decimal ds >? ulong_max
    then {| ul_value := ulong_max;
            ul_endp := length (sp ++ "+"%byte :: ds);
            ul_errno := ERANGE |}
    else {| ul_value := decimal ds;
            ul_endp := length (sp ++ "+"%byte :: ds);
            ul_errno := 0 |}.
Proof.
  intros Hsp Hne Hd. unfold strtoul, terminated.
  assert (Hch : chars ((sp ++ "+"%byte :: ds) ++ [x00])
                = sp ++ "+"%byte :: ds).
  { rewrite chars_app_nul. apply chars_nul_free.
    apply nul_free_app; [now apply spaces_nul_free|].
    change (nul_free ("+"%byte :: ds)) with (nul_free ds).
    now apply digits_nul_free. }
  rewrite Hch. clear Hch.
  rewrite (take_while_all isspace sp ("+"%byte :: ds) Hsp eq_refl).
  rewrite skipn_length_app.
  change (is_minus "+"%byte) with false. change (is_plus "+"%byte) with true.
  cbv iota beta. cbn [skipn].
  assert (Ht : take_while isdigit ds = ds).
  { pose proof (take_while_all isdigit ds [] Hd I) as H.
    now rewrite app_nil_r in H. }
  rewrite Ht.
  replace (length sp + 1 + length ds)%nat
    with (length (sp ++ "+"%byte :: ds))
    by (rewrite length_app; simpl; lia).
  destruct ds as [|c r]; [congruence|]. reflexivity.
Qed.

(** X18: [genkey] accepts leading white space and a plus sign before the
    digits of the bit count: the value of the digits, when at most
    [UINT_MAX], is what [rsa_genkey] is called with, and no error is
    reported. *)
Theorem genkey_leading_space_and_plus
  (w : world) (prog : buffer) (sp ds : list byte) :
  forallb isspace sp = true ->
  ds <> [] ->
  forallb isdigit ds = true ->
  decimal ds <= UINT_MAX w ->
  UINT_MAX w <= ULONG_MAX w ->
  hd_error
    (events (main w [prog; lit "genkey";
                     terminated (sp ++ "+"%byte :: ds)]))
  = Some (Call_rsa_genkey (decimal ds))
  /\ written stderr
       (events (main w [prog; lit "genkey";
                        terminated (sp ++ "+"%byte :: ds)])) = [].
Proof.
  intros Hsp Hne Hd Hv Hu. rewrite main_genkey.
  pose proof (decimal_nonneg ds Hd) as H0.
  assert (Hs : strtoul (ULONG_MAX w) (terminated (sp ++ "+"%byte :: ds))
               = {| ul_value := decimal ds;
                    ul_endp := length (sp ++ "+"%byte :: ds);
                    ul_errno := 0 |}).
  { rewrite (strtoul_plus _ sp ds Hsp Hne Hd).
    replace (decimal ds >? ULONG_MAX w) with false
      by (symmetry; rewrite Z.gtb_ltb; apply Z.ltb_ge; lia).
    reflexivity. }
  assert (Hf : strtoul_failed (strtoul (ULONG_MAX w)
                                 (terminated (sp ++ "+"%byte :: ds)))
                 (terminated (sp ++ "+"%byte :: ds)) = false).
  { rewrite Hs. unfold strtoul_failed. cbn [ul_endp ul_errno].
    unfold terminated. rewrite nth_length_app.
    rewrite length_app. simpl length.
    replace (length sp + S (length ds))%nat with (S (length sp + length ds))
      by lia.
    reflexivity. }
  rewrite genkey_mode_accepts;
    [rewrite Hs; cbn [ul_value] | exact Hf | rewrite Hs; cbn [ul_value]; lia].
  destruct (generate_and_write w (decimal ds)) as (tl & E & _ & He).
  rewrite E. unfold events. cbn [snd hd_error written].
  split; [reflexivity | exact He].
Qed.

Lemma genkey_leading_space_and_plus_witness :
  forallb isspace (text " ") = true
  /\ text "512" <> [] /\ forallb isdigit (text "512") = true
  /\ decimal (text "512") <= UINT_MAX (lp64_world toy_key)
  /\ UINT_MAX (lp64_world toy_key) <= ULONG_MAX (lp64_world toy_key)
  /\ hd_error
       (events (main (lp64_world toy_key)
                  [lit "rsa"; lit "genkey";
                   terminated (text " " ++ "+"%byte :: text "512")]))
     = Some (Call_rsa_genkey (decimal (text "512"))).
Proof.
  split; [reflexivity|]. split; [discriminate|]. split; [reflexivity|].
  split; [vm_compute; discriminate|]. split; [vm_compute; discriminate|].
  apply (genkey_leading_space_and_plus (lp64_world toy_key) (lit "rsa")
           (text " ") (text "512"));
    [reflexivity | discriminate | reflexivity | vm_compute; discriminate
    | vm_compute; discriminate].
Defined.

(** A character after the first non-blank one that is neither a digit
    nor white space makes [mpz_set_str] fail, a minus sign included. *)
Lemma mpz_set_str_bad_tail (str : buffer) (x b : byte) (t : list byte) :
  drop_while isspace (chars str) = x :: t ->
  In b t -> isdigit b = false -> isspace b = false ->
  mpz_set_str str = None.
Proof.
  intros H0 Hin Hd Hs. unfold mpz_set_str. rewrite H0.
  assert (H1 : exists negative s1,
             (if is_minus x then (true, t) else (false, x :: t))
             = (negative, s1) /\ In b s1).
  { destruct (is_minus x).
    - exists true, t. split; [reflexivity | exact Hin].
    - exists false, (x :: t). split; [reflexivity | now right]. }
  destruct H1 as (negative & s1 & -> & H1).
  destruct s1 as [|c r]; [contradiction|].
  destruct (isdigit c); [|reflexivity].
  rewrite (scan_digits_bad_char _ 0 b); [reflexivity | | exact Hd | exact Hs].
  apply In_drop_while; [exact H1|].
  rewrite Hs, orb_false_r.
  destruct (is_zero_digit b) eqn:E; [|reflexivity].
  apply Byte.byte_dec_bl in E. subst b. discriminate.
Qed.

(** X19: in the ciphertext argument of [decrypt] a minus sign is accepted
    only as the first non-blank character: a minus sign anywhere after
    it (as in "5-3" or "--5") is a parse error, reported with exit code 1
    before the key file is read. *)
Theorem decrypt_rejects_inner_minus
  (w : world) (prog key_filename : buffer) (sp : list byte) (x : byte)
  (mid post : list byte) :
  forallb isspace sp = true ->
  isspace x = false ->
  is_nul x = false ->
  nul_free mid = true ->
  main w [prog; lit "decrypt"; key_filename;
          sp ++ x :: mid ++ "-"%byte :: post]
  = (1, [Write stderr (text ("could not parse ciphertext" ++ nl))]).
Proof.
  intros Hsp Hx Hn Hm. rewrite main_decrypt. apply decrypt_mode_parse_error.
  assert (Hch : chars (sp ++ x :: mid ++ "-"%byte :: post)
                = sp ++ x :: mid ++ "-"%byte :: chars post).
  { rewrite (chars_app_nul_free sp) by now apply spaces_nul_free.
    f_equal. unfold chars at 1. cbn [take_while]. rewrite Hn. cbn [negb].
    f_equal. fold (chars (mid ++ "-"%byte :: post)).
    rewrite (chars_app_nul_free mid) by exact Hm. reflexivity. }
  apply (mpz_set_str_bad_tail _ x "-"%byte (mid ++ "-"%byte :: chars post));
    try reflexivity.
  - rewrite Hch. clear Hch. induction sp as [|a sp IH]; simpl in *.
    + now rewrite Hx.
    + apply andb_prop in Hsp as [Ha Hsp]. rewrite Ha. now apply IH.
  - apply in_or_app. right. now left.
Qed.

Lemma decrypt_rejects_inner_minus_witness :
  forallb isspace [] = true /\ isspace x35 = false /\ is_nul x35 = false
  /\ nul_free [] = true
  /\ main (lp64_world toy_key)
       [lit "rsa"; lit "decrypt"; lit "k"; [] ++ x35 :: [] ++ "-"%byte :: lit "3"]
     = (1, [Write stderr (text ("could not parse ciphertext" ++ nl))]).
Proof.
  do 4 (split; [reflexivity|]).
  apply (decrypt_rejects_inner_minus (lp64_world toy_key) (lit "rsa") (lit "k")
           [] x35 [] (lit "3")); reflexivity.
Defined.

(** X20: the two range errors of [genkey] are told apart by the size of
    the number: decimal digits worth more than [ULONG_MAX] overflow
    [strtoul] and are reported as "could not parse integer"; a value
    above [UINT_MAX] that still fits an [unsigned long] is reported as
    "integer is too large".  Both exit with code 1 and generate no key. *)
Theorem genkey_range_errors (w : world) (prog : buffer) (ds : list byte) :
  ds <> [] ->
  forallb isdigit ds = true ->
  (ULONG_MAX w < decimal ds ->
   main w [prog; lit "genkey"; terminated ds]
   = (1, [Write stderr (text ("could not parse integer" ++ nl))]))
  /\ (UINT_MAX w < decimal ds <= ULONG_MAX w ->
      main w [prog; lit "genkey"; terminated ds]
      = (1, [Write stderr (text ("integer is too large" ++ nl))])).
Proof.
  intros Hne Hd. rewrite main_genkey. unfold genkey_mode. cbv zeta.
  rewrite (strtoul_digits _ ds Hne Hd).
  split; intros H.
  - replace (decimal ds >? ULONG_MAX w) with true
      by (symmetry; apply Z.gtb_lt; lia).
    cbn [ul_value ul_endp ul_errno].
    change (negb (ERANGE =? 0)) with true.
    rewrite orb_true_r. reflexivity.
  - replace (decimal ds >? ULONG_MAX w) with false
      by (symmetry; rewrite Z.gtb_ltb; apply Z.ltb_ge; lia).
    cbn [ul_value ul_endp ul_errno].
    unfold terminated. rewrite nth_length_app.
    replace (Nat.eqb (length ds) 0) with false
      by (destruct ds; [congruence | reflexivity]).
    replace (decimal ds >? UINT_MAX w) with true
      by (symmetry; apply Z.gtb_lt; lia).
    reflexivity.
Qed.

Lemma genkey_range_errors_witness :
  text "4294967296" <> [] /\ forallb isdigit (text "4294967296") = true
  /\ UINT_MAX (lp64_world toy_key) < decimal (text "4294967296")
     <= ULONG_MAX (lp64_world toy_key)
  /\ main (lp64_world toy_key)
       [lit "rsa"; lit "genkey"; terminated (text "4294967296")]
     = (1, [Write stderr (text ("integer is too large" ++ nl))]).
Proof.
  assert (H : UINT_MAX (lp64_world toy_key) < decimal (text "4294967296")
              <= ULONG_MAX (lp64_world toy_key))
    by (vm_compute; split; [reflexivity | discriminate]).
  split; [discriminate|]. split; [reflexivity|]. split; [exact H|].
  apply (genkey_range_errors (lp64_world toy_key) (lit "rsa")
           (text "4294967296")); [discriminate | reflexivity | exact H].
Defined.

(* ================================================================== *)
(** * The bit-count argument of genkey, by its shape *)


Lemma take_drop_while (p : byte -> bool) (s : list byte) :
  take_while p s ++ drop_while p s = s.
Proof.
  induction s as [|c r IH]; simpl; [reflexivity|].
  destruct (p c); simpl; [now rewrite IH | reflexivity].
Qed.

Lemma forallb_take_while (p : byte -> bool) (s : list byte) :
  forallb p (take_while p s) = true.
Proof.
  induction s as [|c r IH]; simpl; [reflexivity|].
  destruct (p c) eqn:E; simpl; [now rewrite E, IH | reflexivity].
Qed.

Lemma starts_with_drop_while (p : byte -> bool) (s : list byte) :
  starts_with p (drop_while p s) = false.
Proof.
  induction s as [|c r IH]; simpl; [reflexivity|].
  destruct (p c) eqn:E; simpl; [exact IH | exact E].
Qed.

(** Every string has the shape the statements below speak of. *)
Lemma numbits_shape (s : list byte) :
  exists sp sg ds tl,
    s = sp ++ sg ++ ds ++ tl
    /\ forallb isspace sp = true
    /\ is_sign sg = true
    /\ forallb isdigit ds = true
    /\ starts_with isdigit tl = false
    /\ (sg = [] -> ds = [] -> starts_with blank_or_sign tl = false).
Proof.
  pose proof (take_drop_while isspace s) as Hs.
  pose proof (forallb_take_while isspace s) as Hsp.
  pose proof (starts_with_drop_while isspace s) as Hb.
  destruct (drop_while isspace s) as [|c r] eqn:Er.
  - exists (take_while isspace s), [], [], [].
    repeat split; auto.
  - simpl in Hb.
    destruct (is_plus c || is_minus c)%bool eqn:Esg.
    + exists (take_while isspace s), [c], (take_while isdigit r),
        (drop_while isdigit r).
      split; [|split; [exact Hsp|split; [simpl; exact Esg|split;
        [apply forallb_take_while|split;
          [apply starts_with_drop_while | discriminate]]]]].
      rewrite <- Hs at 1. f_equal. cbn [app]. f_equal.
      symmetry. exact (take_drop_while isdigit r).
    + exists (take_while isspace s), [], (take_while isdigit (c :: r)),
        (drop_while isdigit (c :: r)).
      split; [|split; [exact Hsp|split; [reflexivity|split;
        [apply forallb_take_while|split;
          [apply starts_with_drop_while|]]]]].
      * rewrite <- Hs at 1. f_equal.
        symmetry. exact (take_drop_while isdigit (c :: r)).
      * intros _ Hd. simpl in Hd |- *.
        destruct (isdigit c); [discriminate|]. simpl.
        unfold blank_or_sign. rewrite Hb. exact Esg.
Qed.






